(** * The seccheck example server (examples/seccheck/server.cc)

    A shallow embedding of the event receiver: the frame decoder and
    dispatcher [unpack], the per-type callbacks [unpackSyscall<T>] and
    [unpack<T>], the global [dispatchers] map and the body of [pollLoop].

    Conventions of the embedding.
    - An [absl::string_view] is the list of the bytes it views.  A load
      through a [reinterpret_cast] pointer that leaves the view stops the
      run with [ReadPastEnd]: what the machine does next depends on memory
      the view does not own.
    - [err(1, ...)] stops the run with [Err]; an exception nobody catches
      stops it with [Uncaught].
    - [printf] appends a structured line to the output, one constructor per
      format string of the source.
    - The protobuf runtime and the generated message classes are an
      interface ([ProtoLib]); the receiver is verified for every
      implementation of it. *)

From Stdlib Require Import ZArith Lia List String Ascii.
From Stdlib.Strings Require Import Byte.
From stdpp Require Import base decidable option list gmap strings.

Local Open Scope Z_scope.

(** ** Constants *)

(** [constexpr size_t prefixLen = sizeof("type.googleapis.com/") - 1;] *)
Definition prefixLen : nat := String.length "type.googleapis.com/".

(** [constexpr size_t maxEventSize = 300 * 1024;] *)
Definition maxEventSize : Z := 300 * 1024.

(** <sys/epoll.h> and <errno.h> on Linux. *)
Definition EPOLLIN : Z := 0x001.
Definition EPOLLERR : Z := 0x008.
Definition EPOLLHUP : Z := 0x010.
Definition EPOLLRDHUP : Z := 0x2000.
Definition EINTR : Z := 4.

(** ** Bytes, views and strings *)

Definition byte_val (b : byte) : Z := Z.of_N (Byte.to_N b).

(** The value of a little-endian unsigned integer laid out in [bs]. *)
Fixpoint le_combine (bs : list byte) : Z :=
  match bs with
  | [] => 0
  | b :: bs' => Z.lor (byte_val b) (Z.shiftl (le_combine bs') 8)
  end.

(** [*reinterpret_cast<const uintN_t*>(buf.data() + off)] with [w = N/8]:
    [None] when the [w] bytes are not all inside the view. *)
Definition load (w off : nat) (buf : list byte) : option Z :=
  if decide (off + w <= length buf)%nat
  then Some (le_combine (take w (drop off buf)))
  else None.

(** [absl::string_view::substr(pos)]: [None] stands for
    [std::out_of_range], thrown when [pos > size()]. *)
Definition sv_substr (buf : list byte) (pos : nat) : option (list byte) :=
  if decide (pos <= length buf)%nat then Some (drop pos buf) else None.

Fixpoint string_drop (n : nat) (s : string) : string :=
  match n, s with
  | O, _ => s
  | S n', String _ s' => string_drop n' s'
  | S _, EmptyString => EmptyString
  end.

(** [std::string::substr(pos)]: [None] stands for [std::out_of_range],
    thrown when [pos > size()]. *)
Definition str_substr (s : string) (pos : nat) : option string :=
  if decide (pos <= String.length s)%nat then Some (string_drop pos s) else None.

(** [std::string::find_last_of(c)]: the index of the last occurrence of
    [c], [None] for [npos]. *)
Fixpoint find_last_of (s : string) (c : ascii) : option nat :=
  match s with
  | EmptyString => None
  | String a s' =>
      match find_last_of s' c with
      | Some i => Some (S i)
      | None => if decide (a = c) then Some O else None
      end
  end.

(** ** Messages and the protobuf interface *)

(** [google::protobuf::Any]. *)
Record Any := mkAny { type_url : string; value : list byte }.

(** The message classes the callbacks are instantiated with:
    [::gvisor::syscall::Read], [::gvisor::syscall::Open] and
    [::gvisor::container::Start]. *)
Inductive msgtype := Read | Open | Start.

(** What the receiver uses of the protobuf runtime and of the generated
    classes.  [ParseFromArray] and [UnpackTo] return [None] where the C++
    functions return [false]. *)
Class ProtoLib := {
  Event : Type;
  ParseFromArray : list byte -> option Any;
  UnpackTo : msgtype -> Any -> option Event;
  has_exit : Event -> bool;
  (** zero bytes are the encoding of the message with every field unset *)
  ParseFromArray_nil : ParseFromArray [] = Some (mkAny "" []);
}.

(** The instantiations stored in [dispatchers]; a [Callback] is a
    [std::function], [None] when it is empty ([cb == nullptr]). *)
Inductive decoder := fn_unpackSyscall (T : msgtype) | fn_unpack (T : msgtype).
Abbreviation Callback := (option decoder).

Global Instance msgtype_eq_dec : EqDecision msgtype.
Proof. solve_decision. Defined.
Global Instance decoder_eq_dec : EqDecision decoder.
Proof. solve_decision. Defined.

(** ** The process state and the monad of the receiver *)

Section Receiver.
Context {proto_lib : ProtoLib}.

(** One constructor per [printf] format string of the source. *)
Inductive line :=
| Invalid_header_size (message_size : Z)
    (* "Invalid header size %u\n" *)
| Header_size_is_larger_than_message (header_size message_size : Z)
    (* "Header size (%u) is larger than message %u\n" *)
| Message_was_truncated (size expected : Z)
    (* "Message was truncated, size: %lu, expected: %zu\n" *)
| Invalid_URL (url : string)
    (* "Invalid URL %s\n" *)
| No_callback_registered_for (name : string)
    (* "No callback registered for %s\n" *)
| Syscall_event (exit : bool) (name : string) (evt : Event)
    (* "%s %.*s %s\n", "X" or "E" first *)
| Unpacked_event (name : string) (evt : Event)
    (* "%.*s => %s\n" *)
| Connection_closed
    (* "Connection closed\n" *)
| error_line.
    (* "error\n" *)

(** The messages of the [err(1, ...)] calls of the poll thread. *)
Inductive errmsg :=
| UnpackTo_failed (any : Any)      (* "UnpackTo(): %s" *)
| invalid_name (url : string)      (* "invalid name: %.*s" *)
| invalid_proto_message            (* "invalid proto message" *)
| read_failed                      (* "read" *)
| epoll_wait_failed.               (* "epoll_wait" *)

(** Which [substr] threw. *)
Inductive substr_site := on_string_view | on_std_string.

(** Why a run stopped. *)
Inductive halt :=
| Err (m : errmsg)                 (* err(1, ...): the process exits with status 1 *)
| Uncaught (site : substr_site)    (* std::out_of_range reaches std::terminate *)
| ReadPastEnd (off w : nat).       (* a [w]-byte load at [off] leaves the view *)

(** What an observer of the process sees: a line printed, or a stored
    callback entered with its argument. *)
Inductive action :=
| Print (l : line)
| Call (d : decoder) (any : Any).

(** The globals and kernel objects the poll thread works on:
    the [dispatchers] map, the client descriptors that are open and
    registered with the epoll instance, and what was observed so far. *)
Record world := World {
  dispatchers : gmap string Callback;
  clients : gset Z;
  trace : list action;
}.

Inductive result (A : Type) :=
| Ret (a : A) (w : world)
| Stop (h : halt) (w : world).
Global Arguments Ret {A} a w.
Global Arguments Stop {A} h w.

Definition M (A : Type) : Type := world -> result A.

Global Instance M_ret : MRet M := fun A a w => Ret a w.

Global Instance M_bind : MBind M := fun A B k m w =>
  match m w with
  | Ret a w' => k a w'
  | Stop h w' => Stop h w'
  end.

Definition stop {A} (h : halt) : M A := fun w => Stop h w.

(** [err(1, ...)] *)
Definition err {A} (m : errmsg) : M A := stop (Err m).

(** [printf(...)] *)
Definition printf (l : line) : M unit :=
  fun w => Ret tt (World (dispatchers w) (clients w) (trace w ++ [Print l])).

(** Entering a stored callback. *)
Definition entered (d : decoder) (any : Any) : M unit :=
  fun w => Ret tt (World (dispatchers w) (clients w) (trace w ++ [Call d any])).

(** A load through a reinterpreted pointer. *)
Definition load_at (w off : nat) (buf : list byte) : M Z :=
  match load w off buf with
  | Some v => mret v
  | None => stop (ReadPastEnd off w)
  end.

(** A [substr] whose exception nobody catches. *)
Definition or_throw {A} (site : substr_site) (o : option A) : M A :=
  match o with
  | Some a => mret a
  | None => stop (Uncaught site)
  end.

(** [dispatchers[name]]: [std::map::operator[]] returns the mapped value and
    first inserts a value-initialised (empty) [Callback] when the key is
    absent. *)
Definition dispatchers_at (name : string) : M Callback :=
  fun w => match dispatchers w !! name with
           | Some cb => Ret cb w
           | None => Ret None (World (<[name := None]> (dispatchers w))
                                     (clients w) (trace w))
           end.

(** [close(client)]: the descriptor is released, which also removes it from
    the interest list of the epoll instance. *)
Definition close (client : Z) : M unit :=
  fun w => Ret tt (World (dispatchers w) (clients w ∖ {[client]}) (trace w)).

(** Unsigned 32-bit wrap-around. *)
Definition u32 (z : Z) : Z := z mod 2 ^ 32.

(** ** The callbacks *)

(** [template <class T> void unpackSyscall(const google::protobuf::Any& any)] *)
Definition unpackSyscall (T : msgtype) (any : Any) : M unit :=
  match UnpackTo T any with
  | None => err (UnpackTo_failed any)
  | Some evt =>
      match find_last_of (type_url any) "." with
      | None => err (invalid_name (type_url any))
      | Some last_dot =>
          name ← or_throw on_std_string
                    (str_substr (type_url any) (last_dot + 1));
          printf (Syscall_event (has_exit evt) name evt)
      end
  end.

(** [template <class T> void unpack(const google::protobuf::Any& any)] *)
Definition unpack_any (T : msgtype) (any : Any) : M unit :=
  match UnpackTo T any with
  | None => err (UnpackTo_failed any)
  | Some evt =>
      name ← or_throw on_std_string (str_substr (type_url any) prefixLen);
      printf (Unpacked_event name evt)
  end.

(** [cb(any)] for a non-empty [cb]. *)
Definition invoke (d : decoder) (any : Any) : M unit :=
  entered d any;;
  match d with
  | fn_unpackSyscall T => unpackSyscall T any
  | fn_unpack T => unpack_any T any
  end.

(** [std::map<std::string, Callback> dispatchers = {...};] *)
Definition dispatchers_init : gmap string Callback :=
  {[ "gvisor.syscall.Read"%string := Some (fn_unpackSyscall Read);
     "gvisor.syscall.Open"%string := Some (fn_unpackSyscall Open);
     "gvisor.container.Start"%string := Some (fn_unpack Start) ]}.

(** ** The frame decoder and dispatcher *)

(** [void unpack(const absl::string_view buf)] *)
Definition unpack (buf : list byte) : M unit :=
  message_size ← load_at 4 0 buf;
  if decide (message_size > maxEventSize) then
    printf (Invalid_header_size message_size)
  else
    header_size ← load_at 2 4 buf;
    let payload_size := u32 (message_size - 4 - header_size) in
    if decide (payload_size <= 0) then
      printf (Header_size_is_larger_than_message header_size message_size)
    else
      proto ← or_throw on_string_view
                 (sv_substr buf (Z.to_nat (4 + header_size)));
      if decide (Z.of_nat (length proto) < payload_size) then
        printf (Message_was_truncated (Z.of_nat (length proto)) payload_size)
      else
        match ParseFromArray proto with
        | None => err invalid_proto_message
        | Some any =>
            let url := type_url any in
            if decide (String.length url <= prefixLen)%nat then
              printf (Invalid_URL url)
            else
              name ← or_throw on_std_string (str_substr url prefixLen);
              cb ← dispatchers_at name;
              match cb with
              | None => printf (No_callback_registered_for name)
              | Some d => invoke d any
              end
        end.

(** ** The poll thread *)

(** One entry of the array filled by [epoll_wait]. *)
Record epoll_event := { events : Z; data_fd : Z }.

(** What [read(client, buf.data(), buf.size())] does when it is called:
    its return value, and the bytes the kernel stored at the start of
    [buf]. *)
Record read_result := { bytes : Z; stored : list byte }.

(** The body of [for (int i = 0; i < nfds; ++i)] in [pollLoop]. *)
Definition handle_event (ev : epoll_event) (rd : read_result) : M unit :=
  (if decide (Z.land (events ev) EPOLLIN ≠ 0) then
     if decide (bytes rd < 0) then err read_failed
     else if decide (bytes rd > 0) then
       unpack (take (Z.to_nat (bytes rd)) (stored rd))
     else mret tt
   else mret tt);;
  (if decide (Z.land (events ev) (Z.lor EPOLLRDHUP EPOLLHUP) ≠ 0) then
     close (data_fd ev);;
     printf Connection_closed
   else mret tt);;
  (if decide (Z.land (events ev) EPOLLERR ≠ 0) then printf error_line
   else mret tt).

Fixpoint handle_events (evts : list (epoll_event * read_result)) : M unit :=
  match evts with
  | [] => mret tt
  | (ev, rd) :: rest => handle_event ev rd;; handle_events rest
  end.

(** One return of [epoll_wait]: a failure with its [errno], or the ready
    events, each with the outcome of the [read] it may trigger. *)
Inductive wakeup :=
| wait_failed (errno : Z)
| wait_ready (evts : list (epoll_event * read_result)).

(** [void* pollLoop(void* ptr)], run against the wakeups the kernel
    delivers.  The loop of the source never ends by itself: the run is over
    when a wakeup stops the process or when the script is exhausted. *)
Fixpoint pollLoop (script : list wakeup) : M unit :=
  match script with
  | [] => mret tt
  | wait_failed errno :: rest =>
      if decide (errno = EINTR) then pollLoop rest
      else err epoll_wait_failed
  | wait_ready evts :: rest => handle_events evts;; pollLoop rest
  end.

End Receiver.

(** ** A reference implementation of the protobuf interface

    Enough of the protobuf wire format to run the receiver on concrete
    frames: a message is a sequence of fields, each a varint key
    [(field_number << 3) | wire_type] followed by a value whose extent the
    wire type gives.  [Any] has [type_url] as field 1 and [value] as
    field 2, both length-delimited; other fields are skipped, and groups
    are not accepted. *)
Module Wire.

(** A base-128 varint: the value and the bytes that follow it. *)
Fixpoint varint (fuel : nat) (bs : list byte) : option (Z * list byte) :=
  match fuel, bs with
  | S fuel', b :: bs' =>
      if decide (byte_val b < 128) then Some (byte_val b, bs')
      else match varint fuel' bs' with
           | Some (v, rest) => Some (byte_val b - 128 + 128 * v, rest)
           | None => None
           end
  | _, _ => None
  end.

Definition split_at (n : Z) (bs : list byte) : option (list byte * list byte) :=
  if decide (0 <= n <= Z.of_nat (length bs))
  then Some (take (Z.to_nat n) bs, drop (Z.to_nat n) bs)
  else None.

(** The fields of a message, in order: field number and, for a
    length-delimited field, its bytes. *)
Fixpoint fields (fuel : nat) (bs : list byte)
  : option (list (Z * option (list byte))) :=
  match bs with
  | [] => Some []
  | _ =>
    match fuel with
    | O => None
    | S fuel' =>
      '(key, rest) ← varint 10 bs;
      let number := key / 8 in
      if decide (number = 0) then None else
      match key mod 8 with
      | 0 => '(_, rest') ← varint 10 rest;
             fs ← fields fuel' rest'; Some ((number, None) :: fs)
      | 1 => '(_, rest') ← split_at 8 rest;
             fs ← fields fuel' rest'; Some ((number, None) :: fs)
      | 2 => '(len, rest') ← varint 10 rest;
             '(body, rest'') ← split_at len rest';
             fs ← fields fuel' rest''; Some ((number, Some body) :: fs)
      | 5 => '(_, rest') ← split_at 4 rest;
             fs ← fields fuel' rest'; Some ((number, None) :: fs)
      | _ => None
      end
    end
  end.

Definition parse (bs : list byte) : option (list (Z * option (list byte))) :=
  fields (length bs) bs.

(** The last length-delimited occurrence of field [n] wins. *)
Definition field_bytes (n : Z) (fs : list (Z * option (list byte)))
  : list byte :=
  fold_left (fun acc f => match f with
                          | (m, Some body) => if decide (m = n) then body else acc
                          | _ => acc
                          end) fs [].

Definition parse_any (bs : list byte) : option Any :=
  fs ← parse bs;
  Some (mkAny (string_of_list_byte (field_bytes 1 fs)) (field_bytes 2 fs)).

Definition full_name (T : msgtype) : string :=
  match T with
  | Read => "gvisor.syscall.Read"
  | Open => "gvisor.syscall.Open"
  | Start => "gvisor.container.Start"
  end.

(** [Any::Is<T>()]: the URL ends with ["/" ++ full_name T]. *)
Definition is_type (T : msgtype) (url : string) : bool :=
  let n := String.length (full_name T) in
  let l := String.length url in
  bool_decide (n + 1 <= l)%nat &&
  bool_decide (string_drop (l - n - 1) url = String "/" (full_name T)).

(** An event is kept as its fields; the reference implementation takes
    field 2 of a syscall message for its [exit] submessage. *)
Definition unpack_to (T : msgtype) (any : Any)
  : option (list (Z * option (list byte))) :=
  if is_type T (type_url any) then parse (value any) else None.

Definition exit_present (fs : list (Z * option (list byte))) : bool :=
  bool_decide (Exists (fun f => f.1 = 2) fs).

Definition reference : ProtoLib := {|
  Event := list (Z * option (list byte));
  ParseFromArray := parse_any;
  UnpackTo := unpack_to;
  has_exit := exit_present;
  ParseFromArray_nil := eq_refl;
|}.

(** Encoders, to build concrete frames. *)
Definition byte_of_Z (z : Z) : byte :=
  default x00 (Byte.of_N (Z.to_N (z mod 256))).

Fixpoint le_split (w : nat) (z : Z) : list byte :=
  match w with
  | O => []
  | S w' => byte_of_Z z :: le_split w' (z / 256)
  end.

Definition delimited (number : Z) (body : list byte) : list byte :=
  byte_of_Z (number * 8 + 2) :: byte_of_Z (Z.of_nat (length body)) :: body.

(** [Any] with a URL and a value of fewer than 128 bytes each. *)
Definition encode_any (url : string) (payload : list byte) : list byte :=
  delimited 1 (list_byte_of_string url) ++ delimited 2 payload.

End Wire.

(** The frame the producer sends for an envelope: [total_size] (u32),
    [header_size] (u16), [dropped_count] (u32), then the envelope, with
    [total_size] counting all of it. *)
Definition frame (header_size dropped_count : Z) (envelope : list byte)
  : list byte :=
  Wire.le_split 4 (4 + 6 + Z.of_nat (length envelope))
  ++ Wire.le_split 2 header_size
  ++ Wire.le_split 4 dropped_count
  ++ envelope.

(** ** Notions used to state the properties *)

Section Notions.
Context {proto_lib : ProtoLib}.

(** The process right after start-up: the map as initialised, no client. *)
Definition world0 : world := World dispatchers_init ∅ [].

(** The world a run ended in. *)
Definition world_of {A} (r : result A) : world :=
  match r with
  | Ret _ w => w
  | Stop _ w => w
  end.

(** The callbacks entered, in order, with their arguments. *)
Definition calls (t : list action) : list (decoder * Any) :=
  omap (fun a => match a with
                 | Call d any => Some (d, any)
                 | Print _ => None
                 end) t.

Definition say (l : line) (w : world) : world :=
  World (dispatchers w) (clients w) (trace w ++ [Print l]).

(** The size checks of [unpack] (lines 81 to 100): [Some proto] when they
    all pass and leave the view [proto] for [ParseFromArray]. *)
Definition frame_payload (buf : list byte) : option (list byte) :=
  message_size ← load 4 0 buf;
  if decide (message_size > maxEventSize) then None else
  header_size ← load 2 4 buf;
  if decide (u32 (message_size - 4 - header_size) <= 0) then None else
  proto ← sv_substr buf (Z.to_nat (4 + header_size));
  if decide (Z.of_nat (length proto) < u32 (message_size - 4 - header_size))
  then None else Some proto.

(** Lines 103 to 121 of [unpack], entered with the view that passed the
    size checks. *)
Definition unpack_envelope (proto : list byte) : M unit :=
  match ParseFromArray proto with
  | None => err invalid_proto_message
  | Some any =>
      if decide (String.length (type_url any) <= prefixLen)%nat then
        printf (Invalid_URL (type_url any))
      else
        name ← or_throw on_std_string (str_substr (type_url any) prefixLen);
        cb ← dispatchers_at name;
        match cb with
        | None => printf (No_callback_registered_for name)
        | Some d => invoke d any
        end
  end.

(** The callback a lookup of [name] finds in [d]: an absent key and an empty
    callback are both [None]. *)
Definition callback_of (d : gmap string Callback) (name : string) : Callback :=
  default None (d !! name).

(** [d'] is [d] with empty callbacks added under keys [d] does not have. *)
Definition grown_by_empty (d d' : gmap string Callback) : Prop :=
  forall name,
    d' !! name = d !! name \/ (d !! name = None /\ d' !! name = Some None).

(** The message class a stored callback unpacks to. *)
Definition target (d : decoder) : msgtype :=
  match d with
  | fn_unpackSyscall T => T
  | fn_unpack T => T
  end.

Definition hangup (ev : epoll_event) : Prop :=
  Z.land (events ev) (Z.lor EPOLLRDHUP EPOLLHUP) ≠ 0.

Definition readable (ev : epoll_event) : Prop :=
  Z.land (events ev) EPOLLIN ≠ 0.

(** A computation that only ever adds empty callbacks to the map. *)
Definition keeps_callbacks {A} (m : M A) : Prop :=
  forall w, grown_by_empty (dispatchers w) (dispatchers (world_of (m w))).

(** The world the hang-up and error branches of the loop body leave, from
    the world [w] the read branch left. *)
Definition after_read (ev : epoll_event) (w : world) : world :=
  let w1 := if decide (hangup ev)
            then say Connection_closed
                   (World (dispatchers w) (clients w ∖ {[data_fd ev]})
                      (trace w))
            else w in
  if decide (Z.land (events ev) EPOLLERR ≠ 0) then say error_line w1 else w1.

(** The read branch of the loop body. *)
Definition read_step (ev : epoll_event) (rd : read_result) : M unit :=
  if decide (readable ev) then
    if decide (bytes rd < 0) then err read_failed
    else if decide (bytes rd > 0) then
      unpack (take (Z.to_nat (bytes rd)) (stored rd))
    else mret tt
  else mret tt.

End Notions.

(** ** Inputs for concrete runs *)

(** An envelope for [container.Start] with the value 08 01. *)
Definition start_envelope : list byte :=
  Wire.encode_any "type.googleapis.com/gvisor.container.Start" [x08; x01].

(** An envelope whose name has no callback. *)
Definition unknown_envelope : list byte :=
  Wire.encode_any "type.googleapis.com/unknown.Type" [].

(** An envelope whose URL is shorter than the prefix. *)
Definition short_url_envelope : list byte :=
  Wire.encode_any "short/url" [].

(** One client, descriptor 5, accepted and registered. *)
Definition one_client : @world Wire.reference :=
  World dispatchers_init {[5]} [].

(** ** The main thread

    [main] and [startPollThread].  The main thread prints its own lines and
    ends through its own [err] calls; what it shares with the poll thread is
    the set of descriptors registered with the epoll instance.  The values
    the system calls return are inputs. *)
Module Acceptor.

Inductive line :=
| Socket_address (path : string)   (* "Socket address %s\n" *)
| Connection_accepted.             (* "Connection accepted\n" *)

Inductive errmsg :=
| socket_failed                    (* "socket" *)
| bind_failed                      (* "bind" *)
| listen_failed                    (* "listen" *)
| epoll_create_failed              (* "epoll_create" *)
| pthread_create_failed            (* "pthread_create" *)
| accept_failed                    (* "accept" *)
| epoll_ctl_ADD_failed.            (* "epoll_ctl(ADD)" *)

Inductive halt :=
| Err (m : errmsg)                 (* err(1, ...) *)
| WritePastEnd (n : nat).          (* [strncpy] stores [n] bytes in [sun_path] *)

(** The descriptors registered with the epoll instance, each for
    [EPOLLIN], and the lines printed. *)
Record state := State { registered : gset Z; out : list line }.

Inductive outcome :=
| Running (s : state)              (* still in the accept loop *)
| Stopped (h : halt) (s : state).

(** [sizeof(addr.sun_path)] in <sys/un.h> on Linux. *)
Definition sun_path_size : nat := 108.

(** What the calls made before the accept loop return. *)
Record startup := {
  socket_ret : Z;
  bind_ret : Z;
  listen_ret : Z;
  epoll_create_ret : Z;
  pthread_create_ret : Z;
}.

(** One return of [accept] with the [errno] it leaves, and the return of the
    [epoll_ctl] that follows a success. *)
Record accept_result := { client : Z; errno : Z; epoll_ctl_ret : Z }.

Definition say (l : line) (s : state) : state :=
  State (registered s) (out s ++ [l]).

(** [for (;;) { int client = accept(...); ... }], run against the returns
    of [accept]: over when one stops the process or when the script is
    exhausted. *)
Fixpoint acceptLoop (script : list accept_result) (s : state) : outcome :=
  match script with
  | [] => Running s
  | a :: rest =>
      if decide (client a < 0) then
        if decide (errno a = EINTR) then acceptLoop rest s
        else Stopped (Err accept_failed) s
      else
        let s1 := say Connection_accepted s in
        if decide (epoll_ctl_ret a < 0) then Stopped (Err epoll_ctl_ADD_failed) s1
        else acceptLoop rest (State ({[client a]} ∪ registered s1) (out s1))
  end.

(** [void startPollThread(int poll_fd)]: [None] when it returns. *)
Definition startPollThread (k : startup) : option halt :=
  if decide (pthread_create_ret k ≠ 0) then Some (Err pthread_create_failed)
  else None.

(** [extern "C" int main(int argc, char** argv)], with [argc = length argv]. *)
Definition main (argv : list string) (k : startup)
    (script : list accept_result) : outcome :=
  let path := match argv with
              | _ :: arg :: _ => arg
              | _ => "/tmp/123.sock"%string
              end in
  let s := say (Socket_address path) (State ∅ []) in
  if decide (socket_ret k < 0) then Stopped (Err socket_failed) s
  else if decide (sun_path_size < String.length path + 1)%nat then
    Stopped (WritePastEnd (String.length path + 1)) s
  else if decide (bind_ret k ≠ 0) then Stopped (Err bind_failed) s
  else if decide (listen_ret k < 0) then Stopped (Err listen_failed) s
  else if decide (epoll_create_ret k < 0) then Stopped (Err epoll_create_failed) s
  else match startPollThread k with
       | Some h => Stopped h s
       | None => acceptLoop script s
       end.

(** The descriptors a script hands out. *)
Definition accepted (script : list accept_result) : list Z :=
  client <$> filter (fun a => 0 <= client a) script.

Definition interrupted (a : accept_result) : Prop :=
  client a < 0 /\ errno a = EINTR.

Global Instance interrupted_dec a : Decision (interrupted a).
Proof. unfold interrupted. apply _. Defined.

Definition state_of (o : outcome) : state :=
  match o with
  | Running s => s
  | Stopped _ s => s
  end.

End Acceptor.

(** ** More notions *)

Section MoreNotions.
Context {proto_lib : ProtoLib}.

(** The lines printed, in order. *)
Definition prints (t : list action) : list line :=
  omap (fun a => match a with
                 | Print l => Some l
                 | Call _ _ => None
                 end) t.

(** A computation whose final world is always related to the initial one. *)
Definition preserves (R : world -> world -> Prop) {A} (m : M A) : Prop :=
  forall w, R w (world_of (m w)).

Definition same_clients (w w' : world) : Prop := clients w' = clients w.

Definition fewer_clients (w w' : world) : Prop := clients w' ⊆ clients w.

Definition longer_trace (w w' : world) : Prop :=
  exists t, trace w' = trace w ++ t.

(** [true] when the character occurs in the string. *)
Fixpoint occurs (c : ascii) (s : string) : bool :=
  match s with
  | EmptyString => false
  | String a s' => bool_decide (a = c) || occurs c s'
  end.

(** What follows the last dot of a string; the string itself when it has
    no dot. *)
Definition after_last_dot (s : string) : string :=
  match find_last_of s "." with
  | Some i => string_drop (S i) s
  | None => s
  end.

(** A computation that never ends in [std::out_of_range] thrown by
    [std::string::substr]. *)
Definition no_url_throw {A} (m : M A) : Prop :=
  forall w w', m w ≠ Stop (Uncaught on_std_string) w'.

Global Instance hangup_dec ev : Decision (hangup ev).
Proof. unfold hangup. apply _. Defined.

(** The descriptors of the events of a script that carry a hang-up bit. *)
Fixpoint hung_up (script : list wakeup) : list Z :=
  match script with
  | [] => []
  | wait_failed _ :: rest => hung_up rest
  | wait_ready evts :: rest =>
      (data_fd <$> filter hangup (fst <$> evts)) ++ hung_up rest
  end.

Definition interrupted_wait (k : wakeup) : Prop :=
  match k with
  | wait_failed errno => errno = EINTR
  | wait_ready _ => False
  end.

Global Instance interrupted_wait_dec k : Decision (interrupted_wait k).
Proof. destruct k; simpl; apply _. Defined.

End MoreNotions.

(** ** More inputs for concrete runs *)

(** Two clients, descriptors 5 and 7. *)
Definition two_clients : @world Wire.reference :=
  World dispatchers_init {[5; 7]} [].

(** A size field above [maxEventSize]: 307201. *)
Definition oversized_view : list byte := [x01; xb0; x04; x00].

(** 20 bytes announced with a 6-byte header, 12 bytes present. *)
Definition truncated_view : list byte :=
  [x14; x00; x00; x00; x06; x00; x00; x00; x00; x00; xaa; xbb].

(** 20 bytes announced with a 32-byte header, 6 bytes present. *)
Definition header_beyond_view : list byte :=
  [x14; x00; x00; x00; x20; x00].

(** A syscall point with an empty [exit] submessage (field 2). *)
Definition read_exit_envelope : list byte :=
  Wire.encode_any "type.googleapis.com/gvisor.syscall.Read" [x12; x00].

(** Start-up calls that all succeed. *)
Definition startup_ok : Acceptor.startup :=
  {| Acceptor.socket_ret := 3; Acceptor.bind_ret := 0;
     Acceptor.listen_ret := 0; Acceptor.epoll_create_ret := 4;
     Acceptor.pthread_create_ret := 0 |}.

(** Two connections accepted, with an interrupted [accept] in between. *)
Definition accept_script : list Acceptor.accept_result :=
  [ {| Acceptor.client := 5; Acceptor.errno := 0; Acceptor.epoll_ctl_ret := 0 |};
    {| Acceptor.client := -1; Acceptor.errno := EINTR;
       Acceptor.epoll_ctl_ret := 0 |};
    {| Acceptor.client := 7; Acceptor.errno := 0; Acceptor.epoll_ctl_ret := 0 |} ].

(** A socket path of 108 characters. *)
Definition long_path : string :=
  "/tmp/aaaaaaaaaaaaaaaaaaaaaaaaaaaaaaaaaaaaaaaaaaaaaaaaaaaaaaaaaaaaaaaaaaaaaaaaaaaaaaaaaaaaaaaaaaaaaaaaaaaaaaaaaaa".

(** ** Properties *)

Section Properties.
Context {proto_lib : ProtoLib}.

Implicit Types (buf proto : list byte) (w : world) (d : decoder).

(** Unfolds the monad of the receiver in the goal. *)
Ltac run :=
  cbv beta iota delta [mbind M_bind mret M_ret load_at or_throw stop err].

(** *** Loads *)

Lemma byte_val_range (b : byte) : 0 <= byte_val b < 256.
Proof.
  unfold byte_val. pose proof (Byte.to_N_bounded b) as Hb.
  split; [apply N2Z.is_nonneg | lia].
Qed.

Lemma lor_shiftl_8 (x y : Z) :
  0 <= x < 256 -> Z.lor x (Z.shiftl y 8) = x + 256 * y.
Proof.
  intros Hx. rewrite Z.shiftl_mul_pow2 by lia.
  rewrite <- Z.add_nocarry_lor; [change (2 ^ 8) with 256; lia|].
  apply Z.bits_inj'. intros n Hn. rewrite Z.land_spec, Z.bits_0.
  destruct (decide (n < 8)) as [Hlt|Hge].
  - rewrite (Z.mul_pow2_bits_low _ _ _ Hlt). apply andb_false_r.
  - assert (Z.testbit x n = false) as ->; [|done].
    destruct (decide (x = 0)) as [->|Hnz]; [apply Z.bits_0|].
    apply Z.bits_above_log2; [lia|].
    assert (Z.log2 x < 8); [|lia].
    apply Z.log2_lt_pow2; [lia|]. change (2 ^ 8) with 256. lia.
Qed.

Lemma le_combine_range (bs : list byte) :
  0 <= le_combine bs < 2 ^ (8 * Z.of_nat (length bs)).
Proof.
  induction bs as [|b bs IH]; [simpl; lia|].
  cbn [le_combine length].
  pose proof (byte_val_range b) as Hb.
  replace (8 * Z.of_nat (S (length bs))) with (8 * Z.of_nat (length bs) + 8) by lia.
  rewrite Z.pow_add_r by lia.
  rewrite lor_shiftl_8 by done.
  change (2 ^ 8) with 256. nia.
Qed.

Lemma byte_val_of_Z (z : Z) : byte_val (Wire.byte_of_Z z) = z mod 256.
Proof.
  unfold Wire.byte_of_Z, byte_val.
  pose proof (Z.mod_pos_bound z 256 ltac:(lia)) as Hz.
  destruct (Byte.of_N (Z.to_N (z mod 256))) as [b|] eqn:E; simpl.
  - apply Byte.to_of_N in E. rewrite E. lia.
  - apply Byte.of_N_None_iff in E. lia.
Qed.

Lemma length_le_split (n : nat) (z : Z) : length (Wire.le_split n z) = n.
Proof. revert z. induction n as [|n IH]; intros z; simpl; [done|by rewrite IH]. Qed.

Lemma le_combine_split (n : nat) (z : Z) :
  le_combine (Wire.le_split n z) = z mod 2 ^ (8 * Z.of_nat n).
Proof.
  revert z. induction n as [|n IH]; intros z.
  - simpl. by rewrite Z.mod_1_r.
  - cbn [Wire.le_split le_combine]. rewrite IH, byte_val_of_Z.
    rewrite lor_shiftl_8 by (apply Z.mod_pos_bound; lia).
    replace (8 * Z.of_nat (S n)) with (8 + 8 * Z.of_nat n) by lia.
    rewrite Z.pow_add_r by lia. change (2 ^ 8) with 256.
    rewrite Z.rem_mul_r by lia. done.
Qed.

Lemma load_Some (n off : nat) buf v :
  load n off buf = Some v ->
  (off + n <= length buf)%nat /\ 0 <= v < 2 ^ (8 * Z.of_nat n).
Proof.
  unfold load. case_decide as Hlen; [|done]. intros [= <-].
  split; [done|].
  pose proof (le_combine_range (take n (drop off buf))) as Hr.
  rewrite length_take, length_drop in Hr.
  replace (n `min` (length buf - off))%nat with n in Hr by lia. done.
Qed.

Lemma load_None (n off : nat) buf :
  (length buf < off + n)%nat -> load n off buf = None.
Proof. unfold load. intros. case_decide; [lia|done]. Qed.

(** *** The two stages of [unpack] *)

Lemma unpack_passes buf proto w :
  frame_payload buf = Some proto ->
  unpack buf w = unpack_envelope proto w.
Proof.
  unfold frame_payload, unpack, unpack_envelope. run.
  destruct (load 4 0 buf) as [message_size|]; [|done]. cbn.
  case_decide; [done|].
  destruct (load 2 4 buf) as [header_size|]; [|done]. cbn.
  case_decide; [done|].
  destruct (sv_substr buf _) as [proto'|]; [|done]. cbn.
  case_decide; [done|]. intros [= ->]. done.
Qed.

Lemma frame_payload_nonempty buf proto :
  frame_payload buf = Some proto -> proto ≠ [] /\ buf ≠ [].
Proof.
  unfold frame_payload.
  destruct (load 4 0 buf) as [message_size|] eqn:Hm; [|done]. cbn.
  case_decide; [done|].
  destruct (load 2 4 buf) as [header_size|]; [|done]. cbn.
  case_decide; [done|].
  destruct (sv_substr buf _) as [proto'|]; [|done]. cbn.
  case_decide; [done|]. intros [= ->].
  apply load_Some in Hm as [Hlen _].
  split; intros ->; simpl in *; lia.
Qed.

Lemma handle_readable_only fd buf w :
  buf ≠ [] ->
  handle_event {| events := EPOLLIN; data_fd := fd |}
    {| bytes := Z.of_nat (length buf); stored := buf |} w
  = unpack buf w.
Proof.
  intros Hne. unfold handle_event. cbn [events bytes stored data_fd].
  assert (0 < Z.of_nat (length buf)) by (destruct buf; [done|simpl; lia]).
  rewrite Nat2Z.id, firstn_all.
  change (Z.land EPOLLIN EPOLLIN) with 1.
  change (Z.land EPOLLIN (Z.lor EPOLLRDHUP EPOLLHUP)) with 0.
  change (Z.land EPOLLIN EPOLLERR) with 0.
  repeat case_decide; try lia; try done.
  unfold mbind, M_bind, mret, M_ret. by destruct (unpack buf w) as [[] ?|? ?].
Qed.

(** A wakeup with one readable client whose read filled [buf]: the poll
    thread unpacks [buf] and, unless that stopped the process, waits
    again. *)
Lemma pollLoop_readable_only fd buf rest w :
  buf ≠ [] ->
  pollLoop
    (wait_ready [({| events := EPOLLIN; data_fd := fd |},
                  {| bytes := Z.of_nat (length buf); stored := buf |})]
     :: rest) w
  = match unpack buf w with
    | Ret _ w' => pollLoop rest w'
    | Stop h w' => Stop h w'
    end.
Proof.
  intros Hne. cbn [pollLoop handle_events].
  unfold mbind, M_bind at 1 2. cbn [mret M_ret].
  rewrite handle_readable_only by done.
  by destruct (unpack buf w).
Qed.

(** *** Buffers too short for the size field *)

Lemma unpack_short_buffer buf w :
  (length buf < 4)%nat -> unpack buf w = Stop (ReadPastEnd 0 4) w.
Proof.
  intros Hlen. unfold unpack. run.
  rewrite (load_None 4 0 buf) by lia. done.
Qed.

(** C1 (the code departs from the claim).  A read that returned the three
    bytes 01 02 03 is handed to [unpack], which loads the four bytes of the
    size field without looking at the size of the view: the load leaves the
    view, and no line is printed. *)
Theorem unpack_three_bytes_reads_past_end w :
  unpack [x01; x02; x03] w = Stop (ReadPastEnd 0 4) w
  /\ forall fd rest,
       pollLoop
         (wait_ready [({| events := EPOLLIN; data_fd := fd |},
                       {| bytes := 3; stored := [x01; x02; x03] |})]
          :: rest) w
       = Stop (ReadPastEnd 0 4) w.
Proof.
  assert (unpack [x01; x02; x03] w = Stop (ReadPastEnd 0 4) w) as Hrun
    by (apply unpack_short_buffer; simpl; lia).
  split; [done|]. intros fd rest.
  by rewrite (pollLoop_readable_only fd [x01; x02; x03]), Hrun.
Qed.

(** *** A header larger than the message *)

Lemma u32_wraps (message_size header_size : Z) :
  0 <= message_size <= maxEventSize -> 0 <= header_size < 2 ^ 16 ->
  4 + header_size > message_size ->
  u32 (message_size - 4 - header_size)
  = 2 ^ 32 + (message_size - 4 - header_size).
Proof.
  unfold u32, maxEventSize. intros Hm Hh Hgt.
  symmetry. apply (Z.mod_unique_pos _ _ (-1)); lia.
Qed.

(** When the header does not fit in the message the subtraction wraps
    around, the test [payload_size <= 0] is false, and the run goes on to
    [substr]: it either throws or reports a truncated message.  The view
    is one filled by [read], of at most [maxEventSize] bytes. *)
Lemma unpack_header_exceeds_message buf w (message_size header_size : Z) :
  Z.of_nat (length buf) <= maxEventSize ->
  load 4 0 buf = Some message_size ->
  load 2 4 buf = Some header_size ->
  message_size <= maxEventSize ->
  4 + header_size > message_size ->
  unpack buf w = Stop (Uncaught on_string_view) w
  \/ exists size,
      unpack buf w
      = Ret tt (say (Message_was_truncated size
                       (2 ^ 32 + (message_size - 4 - header_size))) w).
Proof.
  intros Hbuf Hm Hh Hmax Hgt.
  pose proof (load_Some _ _ _ _ Hm) as [_ Hmr].
  pose proof (load_Some _ _ _ _ Hh) as [_ Hhr].
  change (8 * Z.of_nat 2) with 16 in Hhr.
  unfold unpack. run. rewrite Hm, Hh.
  rewrite u32_wraps by lia.
  case_decide; [lia|].
  case_decide; [unfold maxEventSize in *; lia|].
  unfold sv_substr. case_decide; [|by left].
  right. exists (Z.of_nat (length (drop (Z.to_nat (4 + header_size)) buf))).
  case_decide as Hlt; [done|].
  rewrite length_drop in Hlt. unfold maxEventSize in *. lia.
Qed.

(** C2 (the code departs from the claim).  The frame
    08 00 00 00 | 06 00 | 00 00 00 00 announces [total_size = 8] and
    [header_size = 6], so [4 + header_size > total_size].  The subtraction
    is done on 32 bits and wraps around to 4294967294, the test
    [payload_size <= 0] on the unsigned result is false, and the frame is
    reported as truncated, not as having too large a header.  When the read
    returned only the 8 bytes announced, [substr(10)] throws instead and
    the process is terminated. *)
Theorem unpack_header_larger_wraps w :
  u32 (8 - 4 - 6) = 4294967294
  /\ unpack [x08; x00; x00; x00; x06; x00; x00; x00; x00; x00] w
     = Ret tt (say (Message_was_truncated 0 4294967294) w)
  /\ unpack [x08; x00; x00; x00; x06; x00; x00; x00] w
     = Stop (Uncaught on_string_view) w.
Proof. split; [|split]; reflexivity. Qed.

(** *** A header that takes the whole message *)

(** C9.  When [total_size] is exactly [4 + header_size] the subtraction
    does not wrap, [payload_size] is zero, and the frame is reported with
    the header-larger-than-message line and dropped: the size checks do not
    pass, so nothing reaches [ParseFromArray]. *)
Theorem unpack_empty_payload_dropped buf w (message_size header_size : Z) :
  load 4 0 buf = Some message_size ->
  load 2 4 buf = Some header_size ->
  message_size = 4 + header_size ->
  u32 (message_size - 4 - header_size) = message_size - 4 - header_size
  /\ unpack buf w
     = Ret tt (say (Header_size_is_larger_than_message header_size
                      message_size) w)
  /\ frame_payload buf = None.
Proof.
  intros Hm Hh ->.
  pose proof (load_Some _ _ _ _ Hh) as [_ Hhr].
  change (8 * Z.of_nat 2) with 16 in Hhr.
  replace (4 + header_size - 4 - header_size) with 0 by lia.
  split; [done|].
  unfold unpack, frame_payload. run. rewrite Hm, Hh. cbn.
  replace (4 + header_size - 4 - header_size) with 0 by lia.
  case_decide; [unfold maxEventSize in *; lia|].
  split; [done|]. 
  case_decide as Hz; [done|]. exfalso. apply Hz. done.
Qed.

(** *** Envelopes *)

(** C8.  A view that passes the size checks and that [ParseFromArray]
    rejects ends the process through [err(1, "invalid proto message")]:
    nothing is printed, and the poll thread, woken for this read, handles no
    later wakeup. *)
Theorem unpack_invalid_proto_is_fatal buf proto w :
  frame_payload buf = Some proto ->
  ParseFromArray proto = None ->
  unpack buf w = Stop (Err invalid_proto_message) w
  /\ forall fd rest,
       pollLoop
         (wait_ready [({| events := EPOLLIN; data_fd := fd |},
                       {| bytes := Z.of_nat (length buf); stored := buf |})]
          :: rest) w
       = Stop (Err invalid_proto_message) w.
Proof.
  intros Hf Hp.
  assert (unpack buf w = Stop (Err invalid_proto_message) w) as Hrun.
  { rewrite (unpack_passes _ _ _ Hf). unfold unpack_envelope. by rewrite Hp. }
  split; [done|]. intros fd rest.
  rewrite pollLoop_readable_only, Hrun; [done|].
  by apply frame_payload_nonempty in Hf as [_ ?].
Qed.

(** C6.  An envelope whose [type_url] is not longer than the prefix is
    reported with the invalid-URL line and dropped; [unpack] returns to its
    caller, so no [substr] was run on the URL (one out of bounds would have
    stopped the run with [Uncaught on_std_string]), no callback was looked
    up and none was entered. *)
Theorem unpack_short_url_dropped buf proto any w :
  frame_payload buf = Some proto ->
  ParseFromArray proto = Some any ->
  (String.length (type_url any) <= prefixLen)%nat ->
  unpack buf w = Ret tt (say (Invalid_URL (type_url any)) w).
Proof.
  intros Hf Hp Hlen. rewrite (unpack_passes _ _ _ Hf).
  unfold unpack_envelope. rewrite Hp. case_decide; done.
Qed.

(** *** The callbacks *)

(** C10.  Each callback stored in [dispatchers] at start-up ends the
    process through [err(1, "UnpackTo(): ...")] when [UnpackTo] fails on its
    argument: nothing is printed and control does not come back to
    [unpack]. *)
Theorem registered_decoder_unpack_failure_is_fatal name d any w :
  dispatchers_init !! name = Some (Some d) ->
  UnpackTo (target d) any = None ->
  (match d with
   | fn_unpackSyscall T => unpackSyscall T any w
   | fn_unpack T => unpack_any T any w
   end) = Stop (Err (UnpackTo_failed any)) w
  /\ invoke d any w
     = Stop (Err (UnpackTo_failed any))
         (World (dispatchers w) (clients w) (trace w ++ [Call d any])).
Proof.
  intros _ Hu. unfold invoke, unpackSyscall, unpack_any, entered. run.
  destruct d as [T|T]; simpl in Hu; rewrite Hu; done.
Qed.

(** *** The [dispatchers] map over a run *)

Lemma grown_by_empty_refl (m : gmap string Callback) : grown_by_empty m m.
Proof. intros name. by left. Qed.

Lemma grown_by_empty_trans (m1 m2 m3 : gmap string Callback) :
  grown_by_empty m1 m2 -> grown_by_empty m2 m3 -> grown_by_empty m1 m3.
Proof.
  intros H12 H23 name.
  destruct (H12 name) as [E12|[E1 E2]], (H23 name) as [E23|[E2' E3]].
  - left. by rewrite E23.
  - right. by rewrite <- E12.
  - right. by rewrite E23.
  - by rewrite E2 in E2'.
Qed.

Lemma grown_by_empty_callback_of (m m' : gmap string Callback) name :
  grown_by_empty m m' -> callback_of m' name = callback_of m name.
Proof.
  intros H. unfold callback_of.
  destruct (H name) as [->|[-> ->]]; done.
Qed.

Lemma keeps_ret {A} (a : A) : keeps_callbacks (mret a).
Proof. intros w. apply grown_by_empty_refl. Qed.

Lemma keeps_stop {A} h : keeps_callbacks (@stop _ A h).
Proof. intros w. apply grown_by_empty_refl. Qed.

Lemma keeps_err {A} m : keeps_callbacks (@err _ A m).
Proof. apply keeps_stop. Qed.

Lemma keeps_printf l : keeps_callbacks (printf l).
Proof. intros w. apply grown_by_empty_refl. Qed.

Lemma keeps_entered d any : keeps_callbacks (entered d any).
Proof. intros w. apply grown_by_empty_refl. Qed.

Lemma keeps_close client : keeps_callbacks (close client).
Proof. intros w. apply grown_by_empty_refl. Qed.

Lemma keeps_load_at n off buf : keeps_callbacks (load_at n off buf).
Proof. unfold load_at. destruct (load n off buf); [apply keeps_ret|apply keeps_stop]. Qed.

Lemma keeps_or_throw {A} site (o : option A) : keeps_callbacks (or_throw site o).
Proof. destruct o; [apply keeps_ret|apply keeps_stop]. Qed.

Lemma keeps_dispatchers_at name : keeps_callbacks (dispatchers_at name).
Proof.
  intros w. unfold dispatchers_at.
  destruct (dispatchers w !! name) as [cb|] eqn:E; simpl.
  - apply grown_by_empty_refl.
  - intros name'. destruct (decide (name = name')) as [<-|Hne].
    + right. by rewrite lookup_insert_eq.
    + left. by rewrite lookup_insert_ne.
Qed.

Lemma keeps_bind {A B} (m : M A) (k : A -> M B) :
  keeps_callbacks m -> (forall a, keeps_callbacks (k a)) ->
  keeps_callbacks (m ≫= k).
Proof.
  intros Hm Hk w. unfold mbind, M_bind.
  specialize (Hm w). destruct (m w) as [a w'|h w']; simpl in *; [|done].
  eapply grown_by_empty_trans; [exact Hm|apply Hk].
Qed.

Create HintDb keeps.
#[local] Hint Resolve keeps_ret keeps_stop keeps_err keeps_printf
  keeps_entered keeps_close keeps_load_at keeps_or_throw
  keeps_dispatchers_at : keeps.

(** Walks through a computation, one bind or branch at a time. *)
Ltac keeps_step :=
  match goal with
  | |- keeps_callbacks (_ ≫= _) => apply keeps_bind; [|intros]
  | |- keeps_callbacks (if decide ?P then _ else _) => destruct (decide P)
  | |- keeps_callbacks (match ?o with Some _ => _ | None => _ end) =>
      destruct o
  | |- keeps_callbacks (match ?d with fn_unpackSyscall _ => _ | fn_unpack _ => _ end) =>
      destruct d
  end.

Lemma keeps_unpackSyscall T any : keeps_callbacks (unpackSyscall T any).
Proof. unfold unpackSyscall. repeat keeps_step; auto with keeps. Qed.

Lemma keeps_unpack_any T any : keeps_callbacks (unpack_any T any).
Proof. unfold unpack_any. repeat keeps_step; auto with keeps. Qed.

Lemma keeps_invoke d any : keeps_callbacks (invoke d any).
Proof.
  unfold invoke. repeat keeps_step;
    auto using keeps_unpackSyscall, keeps_unpack_any with keeps.
Qed.

Lemma keeps_unpack buf : keeps_callbacks (unpack buf).
Proof.
  unfold unpack. repeat keeps_step; auto using keeps_invoke with keeps.
Qed.

Lemma keeps_handle_event ev rd : keeps_callbacks (handle_event ev rd).
Proof.
  unfold handle_event. repeat keeps_step; auto using keeps_unpack with keeps.
Qed.

Lemma keeps_handle_events evts : keeps_callbacks (handle_events evts).
Proof.
  induction evts as [|[ev rd] evts IH]; cbn [handle_events].
  - apply keeps_ret.
  - apply keeps_bind; [apply keeps_handle_event|done].
Qed.

Lemma keeps_pollLoop script : keeps_callbacks (pollLoop script).
Proof.
  induction script as [|[errno|evts] script IH]; cbn [pollLoop].
  - apply keeps_ret.
  - case_decide; [done|apply keeps_err].
  - apply keeps_bind; [apply keeps_handle_events|done].
Qed.

(** C3, as the code has it.  The map is initialised once, from the table of
    three pairs.  Whatever the poll thread does afterwards, and however the
    run ends, every key keeps the callback it had; the one change there is
    comes from [dispatchers[name]], which adds an empty callback under a
    name that had no entry.  A lookup therefore finds the same callback
    before and after. *)
Theorem dispatchers_only_grow_by_empty_callbacks :
  dispatchers world0 = dispatchers_init
  /\ (forall buf w,
        grown_by_empty (dispatchers w) (dispatchers (world_of (unpack buf w))))
  /\ (forall script w,
        grown_by_empty (dispatchers w)
          (dispatchers (world_of (pollLoop script w))))
  /\ (forall script w name,
        callback_of (dispatchers (world_of (pollLoop script w))) name
        = callback_of (dispatchers w) name).
Proof.
  split; [done|]. split; [|split].
  - intros buf w. apply keeps_unpack.
  - intros script w. apply keeps_pollLoop.
  - intros script w name. apply grown_by_empty_callback_of, keeps_pollLoop.
Qed.

(** *** Names without a callback *)

Lemma str_substr_Some (s : string) (n : nat) :
  (n <= String.length s)%nat -> str_substr s n = Some (string_drop n s).
Proof. intros. unfold str_substr. case_decide; [done|lia]. Qed.

Lemma dispatchers_at_empty name w :
  callback_of (dispatchers w) name = None ->
  dispatchers_at name w
  = Ret None (World (<[name := None]> (dispatchers w)) (clients w) (trace w)).
Proof.
  unfold callback_of, dispatchers_at.
  destruct (dispatchers w !! name) as [cb|] eqn:E; simpl; [|done].
  intros ->. rewrite insert_id by done. by destruct w.
Qed.

(** C7.  The envelope passed the size checks and parsed, and the name
    after the prefix has no callback in the table the map was built from.
    Then [unpack] prints the no-callback line with that name, enters no
    callback, and returns; the map gets an empty callback under the name.
    The poll thread, woken for this read, goes on with the wakeups that
    follow. *)
Theorem unpack_unregistered_name_logged buf proto any w :
  frame_payload buf = Some proto ->
  ParseFromArray proto = Some any ->
  (prefixLen < String.length (type_url any))%nat ->
  grown_by_empty dispatchers_init (dispatchers w) ->
  dispatchers_init !! string_drop prefixLen (type_url any) = None ->
  let name := string_drop prefixLen (type_url any) in
  let w' := World (<[name := None]> (dispatchers w)) (clients w)
              (trace w ++ [Print (No_callback_registered_for name)]) in
  unpack buf w = Ret tt w'
  /\ calls (trace w') = calls (trace w)
  /\ forall fd rest,
       pollLoop
         (wait_ready [({| events := EPOLLIN; data_fd := fd |},
                       {| bytes := Z.of_nat (length buf); stored := buf |})]
          :: rest) w
       = pollLoop rest w'.
Proof.
  intros Hf Hp Hlen Hinv Hnone name w'.
  assert (unpack buf w = Ret tt w') as Hrun.
  { rewrite (unpack_passes _ _ _ Hf). unfold unpack_envelope. rewrite Hp.
    case_decide; [lia|].
    rewrite str_substr_Some by lia. fold name.
    unfold mbind, M_bind. cbn [or_throw mret M_ret].
    rewrite dispatchers_at_empty; [done|].
    rewrite (grown_by_empty_callback_of _ _ _ Hinv).
    unfold callback_of. fold name in Hnone. by rewrite Hnone. }
  split; [done|]. split.
  - unfold w', calls. cbn [trace]. rewrite omap_app. cbn. by rewrite app_nil_r.
  - intros fd rest. rewrite pollLoop_readable_only, Hrun; [done|].
    by apply frame_payload_nonempty in Hf as [_ ?].
Qed.

(** *** Well-formed frames *)

Lemma load_frame_size (header_size dropped_count : Z) (envelope : list byte) :
  load 4 0 (frame header_size dropped_count envelope)
  = Some ((4 + 6 + Z.of_nat (length envelope)) mod 2 ^ 32).
Proof.
  unfold load, frame. rewrite !length_app, !length_le_split.
  case_decide; [|lia]. rewrite drop_0.
  rewrite take_app_length' by by rewrite length_le_split.
  by rewrite le_combine_split.
Qed.

Lemma load_frame_header_size (header_size dropped_count : Z)
    (envelope : list byte) :
  load 2 4 (frame header_size dropped_count envelope)
  = Some (header_size mod 2 ^ 16).
Proof.
  unfold load, frame. rewrite !length_app, !length_le_split.
  case_decide; [|lia].
  rewrite drop_app_length' by by rewrite length_le_split.
  rewrite take_app_length' by by rewrite length_le_split.
  by rewrite le_combine_split.
Qed.

Lemma sv_substr_frame (header_size dropped_count : Z) (envelope : list byte) :
  sv_substr (frame header_size dropped_count envelope) 10 = Some envelope.
Proof.
  unfold sv_substr, frame. rewrite !length_app, !length_le_split.
  case_decide; [|lia]. reflexivity.
Qed.

#[local] Arguments frame : simpl never.

(** A frame with the 6-byte header passes the size checks with its
    envelope, provided the envelope is not empty and the frame is within
    [maxEventSize]. *)
Lemma frame_payload_frame (dropped_count : Z) (envelope : list byte) :
  envelope ≠ [] ->
  4 + 6 + Z.of_nat (length envelope) <= maxEventSize ->
  frame_payload (frame 6 dropped_count envelope) = Some envelope.
Proof.
  intros Hne Hmax. unfold frame_payload.
  assert (0 < Z.of_nat (length envelope))
    by (destruct envelope; [done|simpl; lia]).
  rewrite load_frame_size, load_frame_header_size.
  unfold maxEventSize in *.
  rewrite (Z.mod_small (4 + 6 + _)) by lia.
  change (6 mod 2 ^ 16) with 6. cbn.
  case_decide; [lia|]. cbn.
  replace (4 + 6 + Z.of_nat (length envelope) - 4 - 6)
    with (Z.of_nat (length envelope)) by lia.
  unfold u32. rewrite Z.mod_small by lia.
  case_decide; [lia|].
  change (Z.to_nat (4 + 6)) with 10%nat. rewrite sv_substr_frame. cbn.
  case_decide; [lia|done].
Qed.

Lemma calls_snoc_call (t : list action) d any :
  calls (t ++ [Call d any]) = calls t ++ [(d, any)].
Proof. unfold calls. by rewrite omap_app. Qed.

Lemma calls_snoc_print (t : list action) l :
  calls (t ++ [Print l]) = calls t.
Proof. unfold calls. rewrite omap_app. cbn. by rewrite app_nil_r. Qed.

(** C4.  A frame with [header_size = 6], [dropped_count = 0] and a
    [total_size] that counts the whole frame, whose envelope parses to an
    [Any] with URL ["type.googleapis.com/gvisor.container.Start"] and value
    [payload], makes [unpack] enter one callback and only one: the one
    stored for [gvisor.container.Start], [unpack<Start>], with that [Any].
    The map is the one built at start-up, possibly after earlier lookups. *)
Theorem unpack_start_frame_dispatched (envelope payload : list byte) w :
  4 + 6 + Z.of_nat (length envelope) <= maxEventSize ->
  ParseFromArray envelope
  = Some (mkAny "type.googleapis.com/gvisor.container.Start" payload) ->
  grown_by_empty dispatchers_init (dispatchers w) ->
  dispatchers_init !! "gvisor.container.Start"%string
  = Some (Some (fn_unpack Start))
  /\ calls (trace (world_of (unpack (frame 6 0 envelope) w)))
     = calls (trace w)
       ++ [(fn_unpack Start,
            mkAny "type.googleapis.com/gvisor.container.Start" payload)].
Proof.
  intros Hmax Hp Hinv.
  assert (dispatchers_init !! "gvisor.container.Start"%string
          = Some (Some (fn_unpack Start))) as Hreg by (by vm_compute).
  split; [done|].
  assert (envelope ≠ []) as Hne.
  { intros ->. rewrite ParseFromArray_nil in Hp. done. }
  rewrite (unpack_passes _ envelope) by by apply frame_payload_frame.
  unfold unpack_envelope. rewrite Hp. cbn [type_url].
  case_decide as Hlen; [vm_compute in Hlen; lia|].
  change (str_substr _ prefixLen) with (Some "gvisor.container.Start"%string).
  assert (dispatchers w !! "gvisor.container.Start"%string
          = Some (Some (fn_unpack Start))) as Hw.
  { destruct (Hinv "gvisor.container.Start"%string) as [->|[E _]]; [done|].
    by rewrite Hreg in E. }
  unfold dispatchers_at, invoke, unpack_any, entered, printf. run.
  rewrite Hw. run.
  destruct (UnpackTo Start _) as [evt|]; cbn [type_url].
  - change (str_substr _ prefixLen) with (Some "gvisor.container.Start"%string).
    run. cbn [world_of trace].
    by rewrite calls_snoc_print, calls_snoc_call.
  - cbn [world_of trace]. by rewrite calls_snoc_call.
Qed.

(** *** Connections *)

Lemma handle_event_steps ev rd w :
  handle_event ev rd w
  = match read_step ev rd w with
    | Ret _ w1 => Ret tt (after_read ev w1)
    | Stop h w1 => Stop h w1
    end.
Proof.
  unfold handle_event, read_step, after_read, hangup, readable.
  unfold mbind, M_bind, close, printf, say, mret, M_ret, err, stop.
  destruct (decide (Z.land (events ev) EPOLLIN ≠ 0));
    [destruct (decide (bytes rd < 0)); [done|];
     destruct (decide (bytes rd > 0));
       [destruct (unpack _ w) as [[] w1|h w1]; [|done]|]|];
    destruct (decide (Z.land (events ev) (Z.lor EPOLLRDHUP EPOLLHUP) ≠ 0));
    destruct (decide (Z.land (events ev) EPOLLERR ≠ 0)); done.
Qed.

Lemma after_read_hangup ev w :
  hangup ev ->
  (data_fd ev ∉ clients (after_read ev w))
  /\ (Print Connection_closed ∈ trace (after_read ev w)).
Proof.
  intros Hup. unfold after_read, say.
  destruct (decide (hangup ev)); [|done].
  destruct (decide (Z.land (events ev) EPOLLERR ≠ 0)); cbn; split.
  - apply not_elem_of_difference. right. by apply elem_of_singleton.
  - rewrite !elem_of_app, !list_elem_of_singleton. auto.
  - apply not_elem_of_difference. right. by apply elem_of_singleton.
  - rewrite !elem_of_app, !list_elem_of_singleton. auto.
Qed.

(** C5, as the code has it.  For one ready event of the poll loop:
    - with a hang-up bit ([EPOLLRDHUP] or [EPOLLHUP]) set, the descriptor is
      closed, and so out of the set of registered clients, whenever the
      handling of the event runs to its end; it does so at least when the
      event is not readable or the read returned 0;
    - a negative return of [read] ends the process with [err(1, "read")];
    - a read that returned 0, on an event without a hang-up bit, leaves the
      clients, the map and the output as they were, except for the
      [error] line of an [EPOLLERR] bit. *)
Theorem handle_event_connection_states ev rd w :
  (hangup ev ->
     (forall w', handle_event ev rd w = Ret tt w' ->
        (data_fd ev ∉ clients w') /\ (Print Connection_closed ∈ trace w'))
     /\ ((¬ readable ev \/ bytes rd = 0) ->
         exists w', handle_event ev rd w = Ret tt w'
                    /\ clients w' = clients w ∖ {[data_fd ev]}))
  /\ (readable ev -> bytes rd < 0 ->
       handle_event ev rd w = Stop (Err read_failed) w)
  /\ (readable ev -> bytes rd = 0 -> ¬ hangup ev ->
       exists w', handle_event ev rd w = Ret tt w'
                  /\ clients w' = clients w
                  /\ dispatchers w' = dispatchers w
                  /\ calls (trace w') = calls (trace w)).
Proof.
  rewrite handle_event_steps. unfold read_step.
  split; [intros Hup; split|split].
  - intros w' Hrun.
    assert (exists w1, w' = after_read ev w1) as [w1 ->].
    { destruct (decide (readable ev)); [|injection Hrun as <-; eauto].
      destruct (decide (bytes rd < 0)); [done|].
      destruct (decide (bytes rd > 0)); [|injection Hrun as <-; eauto].
      destruct (unpack _ w) as [[] w1|]; [|done].
      injection Hrun as <-; eauto. }
    by apply after_read_hangup.
  - intros Hor. exists (after_read ev w). split.
    + destruct (decide (readable ev)); [|done].
      destruct Hor as [?|Hz]; [done|].
      destruct (decide (bytes rd < 0)); [lia|].
      destruct (decide (bytes rd > 0)); [lia|done].
    + unfold after_read. destruct (decide (hangup ev)); [|done].
      by destruct (decide (Z.land (events ev) EPOLLERR ≠ 0)).
  - intros Hin Hneg.
    destruct (decide (readable ev)); [|done].
    destruct (decide (bytes rd < 0)); [done|lia].
  - intros Hin Hz Hup. exists (after_read ev w). split.
    + destruct (decide (readable ev)); [|done].
      destruct (decide (bytes rd < 0)); [lia|].
      destruct (decide (bytes rd > 0)); [lia|done].
    + unfold after_read. destruct (decide (hangup ev)); [done|].
      destruct (decide (Z.land (events ev) EPOLLERR ≠ 0)); [|done].
      cbn. repeat split; try done. apply calls_snoc_print.
Qed.

(** *** More on the size checks *)

Lemma u32_zero_iff (message_size header_size : Z) :
  0 <= message_size < 2 ^ 32 -> 0 <= header_size < 2 ^ 16 ->
  u32 (message_size - 4 - header_size) <= 0 <-> message_size = 4 + header_size.
Proof.
  intros Hm Hh. unfold u32.
  pose proof (Z.mod_pos_bound (message_size - 4 - header_size) (2 ^ 32)
                ltac:(lia)) as Hb.
  split.
  - intros Hle. assert ((message_size - 4 - header_size) mod 2 ^ 32 = 0) as Hz
      by lia.
    apply Z.mod_divide in Hz; [|lia]. destruct Hz as [q Hq]. lia.
  - intros ->. replace (4 + header_size - 4 - header_size) with 0 by lia.
    done.
Qed.

Lemma u32_small (message_size header_size : Z) :
  message_size < 2 ^ 32 -> 0 <= header_size -> 4 + header_size <= message_size ->
  u32 (message_size - 4 - header_size) = message_size - 4 - header_size.
Proof. intros. unfold u32. apply Z.mod_small. lia. Qed.

(** An announced size above [maxEventSize] is reported and the frame
    dropped before any other byte of the view is looked at: the rest of the
    view, even its absence, does not matter. *)
Theorem unpack_oversized_rejected buf w (message_size : Z) :
  load 4 0 buf = Some message_size ->
  message_size > maxEventSize ->
  unpack buf w = Ret tt (say (Invalid_header_size message_size) w)
  /\ forall rest,
       unpack (take 4 buf ++ rest) w
       = Ret tt (say (Invalid_header_size message_size) w).
Proof.
  intros Hm Hgt.
  assert (forall b, load 4 0 b = Some message_size ->
            unpack b w = Ret tt (say (Invalid_header_size message_size) w))
    as Hrun.
  { intros b Hb. unfold unpack. run. rewrite Hb. by case_decide. }
  split; [by apply Hrun|]. intros rest. apply Hrun.
  apply load_Some in Hm as Hlen. destruct Hlen as [Hlen _].
  revert Hm. unfold load. rewrite !drop_0, length_app, length_take.
  case_decide; [|done]. case_decide; [|lia].
  by rewrite take_app_length' by (rewrite length_take; lia).
Qed.

(** A view that ends before the announced size is reported as truncated,
    with the bytes present after the header and the bytes announced. *)
Theorem unpack_truncated_reported buf w (message_size header_size : Z) :
  load 4 0 buf = Some message_size ->
  load 2 4 buf = Some header_size ->
  message_size <= maxEventSize ->
  4 + header_size < message_size ->
  4 + header_size <= Z.of_nat (length buf) < message_size ->
  unpack buf w
  = Ret tt (say (Message_was_truncated
                   (Z.of_nat (length buf) - 4 - header_size)
                   (message_size - 4 - header_size)) w).
Proof.
  intros Hm Hh Hmax Hlt Hlen.
  pose proof (load_Some _ _ _ _ Hh) as [_ Hhr].
  change (8 * Z.of_nat 2) with 16 in Hhr.
  unfold unpack. run. rewrite Hm, Hh.
  rewrite u32_small by (unfold maxEventSize in *; lia).
  case_decide; [lia|]. case_decide; [lia|].
  unfold sv_substr. case_decide; [|lia].
  rewrite length_drop. case_decide; [|lia].
  replace (Z.of_nat (length buf - Z.to_nat (4 + header_size))%nat)
    with (Z.of_nat (length buf) - 4 - header_size) by lia.
  done.
Qed.

(** A header that ends beyond the view, in a frame that is not caught by
    the zero-payload test, makes [substr] throw: the process is terminated
    by a record of the peer's choosing. *)
Theorem unpack_header_beyond_view_throws buf w (message_size header_size : Z) :
  load 4 0 buf = Some message_size ->
  load 2 4 buf = Some header_size ->
  message_size <= maxEventSize ->
  message_size ≠ 4 + header_size ->
  Z.of_nat (length buf) < 4 + header_size ->
  unpack buf w = Stop (Uncaught on_string_view) w
  /\ forall fd rest,
       pollLoop
         (wait_ready [({| events := EPOLLIN; data_fd := fd |},
                       {| bytes := Z.of_nat (length buf); stored := buf |})]
          :: rest) w
       = Stop (Uncaught on_string_view) w.
Proof.
  intros Hm Hh Hmax Hne Hlen.
  pose proof (load_Some _ _ _ _ Hm) as [Hl Hmr].
  pose proof (load_Some _ _ _ _ Hh) as [_ Hhr].
  change (8 * Z.of_nat 4) with 32 in Hmr.
  change (8 * Z.of_nat 2) with 16 in Hhr.
  assert (unpack buf w = Stop (Uncaught on_string_view) w) as Hrun.
  { unfold unpack. run. rewrite Hm, Hh.
    case_decide; [lia|].
    case_decide as Hz; [by apply u32_zero_iff in Hz|].
    unfold sv_substr. case_decide; [lia|done]. }
  split; [done|]. intros fd rest.
  rewrite pollLoop_readable_only, Hrun; [done|].
  intros ->. simpl in Hl. lia.
Qed.

Lemma unpack_rejects buf w :
  frame_payload buf = None ->
  dispatchers (world_of (unpack buf w)) = dispatchers w
  /\ calls (trace (world_of (unpack buf w))) = calls (trace w).
Proof.
  unfold frame_payload, unpack. run. unfold printf.
  destruct (load 4 0 buf) as [message_size|]; [|done].
  cbn [mbind option_bind].
  case_decide; [cbn [world_of trace dispatchers]; by rewrite calls_snoc_print|].
  destruct (load 2 4 buf) as [header_size|]; [|done].
  cbn [mbind option_bind].
  case_decide; [cbn [world_of trace dispatchers]; by rewrite calls_snoc_print|].
  destruct (sv_substr buf _) as [proto'|]; [|done].
  cbn [mbind option_bind].
  case_decide; [cbn [world_of trace dispatchers]; by rewrite calls_snoc_print|done].
Qed.

(** For a view that [read] filled, of at most [maxEventSize] bytes, the
    size checks pass exactly when the header ends strictly before the
    announced size and the announced size is within the view; what goes to
    the parser is then the view from the end of the header to its own end.
    In particular no frame passes through the wrap-around of the
    subtraction.  A view that does not pass never reaches a callback and
    leaves the map alone. *)
Theorem size_checks_pass_iff buf proto :
  Z.of_nat (length buf) <= maxEventSize ->
  (frame_payload buf = Some proto <->
   exists message_size header_size,
     load 4 0 buf = Some message_size
     /\ load 2 4 buf = Some header_size
     /\ 4 + header_size < message_size <= Z.of_nat (length buf)
     /\ proto = drop (Z.to_nat (4 + header_size)) buf)
  /\ (frame_payload buf = None ->
      forall w,
        dispatchers (world_of (unpack buf w)) = dispatchers w
        /\ calls (trace (world_of (unpack buf w))) = calls (trace w)).
Proof.
  intros Hbuf. split; [|intros Hnone w; by apply unpack_rejects].
  unfold frame_payload. split.
  - destruct (load 4 0 buf) as [message_size|] eqn:Hm; [|done]. cbn.
    case_decide as Hmax; [done|].
    destruct (load 2 4 buf) as [header_size|] eqn:Hh; [|done]. cbn.
    pose proof (load_Some _ _ _ _ Hm) as [_ Hmr].
    pose proof (load_Some _ _ _ _ Hh) as [_ Hhr].
    change (8 * Z.of_nat 4) with 32 in Hmr.
    change (8 * Z.of_nat 2) with 16 in Hhr.
    case_decide as Hz; [done|].
    unfold sv_substr. case_decide as Hpos; [|done]. cbn.
    rewrite length_drop. case_decide as Hlt; [done|]. intros [= <-].
    exists message_size, header_size. repeat split; try done.
    + rewrite u32_zero_iff in Hz by lia.
      destruct (decide (4 + header_size <= message_size)); [lia|].
      rewrite u32_wraps in Hlt by lia. unfold maxEventSize in *. lia.
    + destruct (decide (4 + header_size <= message_size)).
      * rewrite u32_small in Hlt by lia. lia.
      * rewrite u32_wraps in Hlt by lia. unfold maxEventSize in *. lia.
  - intros (message_size & header_size & Hm & Hh & Hr & ->).
    rewrite Hm. cbn. case_decide; [lia|]. rewrite Hh. cbn.
    pose proof (load_Some _ _ _ _ Hh) as [_ Hhr].
    change (8 * Z.of_nat 2) with 16 in Hhr.
    rewrite u32_small by (unfold maxEventSize in *; lia).
    case_decide; [lia|].
    unfold sv_substr. case_decide; [|lia]. cbn.
    rewrite length_drop. case_decide; [lia|done].
Qed.

Lemma load_app_l (n off : nat) buf extra v :
  load n off buf = Some v -> load n off (buf ++ extra) = Some v.
Proof.
  unfold load. case_decide as Hlen; [|done]. intros [= <-].
  rewrite length_app. case_decide; [|lia]. f_equal.
  rewrite drop_app_le by lia. rewrite take_app_le; [done|].
  rewrite length_drop. lia.
Qed.

(** The announced size does not delimit the envelope.  When a read
    delivers a frame followed by more bytes, such as the next frame, the
    parser is given everything after the header: the view is unpacked like
    the one frame whose envelope includes the trailing bytes. *)
Theorem unpack_parses_to_end_of_view
    (dropped_count : Z) (envelope extra : list byte) w :
  envelope ≠ [] ->
  4 + 6 + Z.of_nat (length (envelope ++ extra)) <= maxEventSize ->
  frame_payload (frame 6 dropped_count envelope ++ extra)
  = Some (envelope ++ extra)
  /\ unpack (frame 6 dropped_count envelope ++ extra) w
     = unpack (frame 6 dropped_count (envelope ++ extra)) w.
Proof.
  intros Hne Hmax. rewrite length_app in Hmax.
  assert (frame_payload (frame 6 dropped_count envelope ++ extra)
          = Some (envelope ++ extra)) as Hf.
  { assert (0 < Z.of_nat (length envelope))
      by (destruct envelope; [done|simpl; lia]).
    unfold frame_payload.
    rewrite (load_app_l _ _ _ _ _ (load_frame_size 6 dropped_count envelope)).
    rewrite (load_app_l _ _ _ _ _
               (load_frame_header_size 6 dropped_count envelope)).
    unfold maxEventSize in *.
    rewrite (Z.mod_small (4 + 6 + _)) by lia.
    change (6 mod 2 ^ 16) with 6. cbn.
    case_decide; [lia|]. cbn.
    rewrite u32_small by lia.
    case_decide; [lia|].
    assert (sv_substr (frame 6 dropped_count envelope ++ extra)
              (Z.to_nat (4 + 6)) = Some (envelope ++ extra)) as ->.
    { unfold sv_substr, frame.
      rewrite !length_app, !length_le_split.
      case_decide; [|lia]. reflexivity. }
    cbn. rewrite length_app. case_decide; [lia|done]. }
  split; [done|].
  rewrite (unpack_passes _ _ _ Hf). symmetry. apply unpack_passes.
  apply frame_payload_frame; [|by rewrite length_app].
  by destruct envelope.
Qed.

(** [dropped_count] is never read: two frames that differ only in it are
    unpacked alike. *)
Theorem unpack_ignores_dropped_count
    (dropped_count dropped_count' : Z) (envelope : list byte) w :
  unpack (frame 6 dropped_count envelope) w
  = unpack (frame 6 dropped_count' envelope) w.
Proof.
  unfold unpack. run.
  rewrite !load_frame_size, !load_frame_header_size.
  change (6 mod 2 ^ 16) with 6.
  case_decide; [done|]. case_decide; [done|].
  change (Z.to_nat (4 + 6)) with 10%nat. by rewrite !sv_substr_frame.
Qed.

(** *** Strings *)

Lemma length_string_drop (n : nat) (s : string) :
  String.length (string_drop n s) = (String.length s - n)%nat.
Proof.
  revert s. induction n as [|n IH]; intros [|a s]; simpl; done.
Qed.

Lemma length_string_app (s1 s2 : string) :
  String.length (s1 +:+ s2) = (String.length s1 + String.length s2)%nat.
Proof. induction s1 as [|a s1 IH]; simpl; [done|by rewrite IH]. Qed.

Lemma string_drop_app_plus (s1 s2 : string) (n : nat) :
  string_drop (String.length s1 + n) (s1 +:+ s2) = string_drop n s2.
Proof. induction s1 as [|a s1 IH]; simpl; done. Qed.

Lemma string_drop_app (s1 s2 : string) :
  string_drop (String.length s1) (s1 +:+ s2) = s2.
Proof.
  rewrite <- (Nat.add_0_r (String.length s1)). by rewrite string_drop_app_plus.
Qed.

Lemma find_last_of_None (s : string) (c : ascii) :
  find_last_of s c = None <-> occurs c s = false.
Proof.
  induction s as [|a s IH]; simpl; [done|].
  destruct (find_last_of s c) as [i|].
  - split; [done|]. intros [_ Hs]%orb_false_elim.
    by apply IH in Hs.
  - case_decide as Ha.
    + split; [done|]. rewrite bool_decide_eq_true_2 by done. done.
    + rewrite bool_decide_eq_false_2 by done. simpl. split; [|done].
      intros _. by apply IH.
Qed.

Lemma find_last_of_Some (s : string) (c : ascii) (i : nat) :
  find_last_of s c = Some i ->
  (i < String.length s)%nat
  /\ occurs c (string_drop (S i) s) = false
  /\ exists pre, s = pre +:+ String c (string_drop (S i) s).
Proof.
  revert i. induction s as [|a s IH]; intros i; simpl; [done|].
  destruct (find_last_of s c) as [j|] eqn:Hj.
  - intros [= <-]. destruct (IH j eq_refl) as (Hlt & Hocc & pre & Hpre).
    split; [lia|]. split; [done|].
    exists (String a pre).
    change (String a s = String a (pre +:+ String c (string_drop (S j) s))).
    by f_equal.
  - case_decide as Ha; [|done]. intros [= <-]. subst a.
    split; [lia|]. split; [by apply find_last_of_None|].
    by exists EmptyString.
Qed.

Lemma find_last_of_app_r (s1 s2 : string) (c : ascii) (i : nat) :
  find_last_of s2 c = Some i ->
  find_last_of (s1 +:+ s2) c = Some (String.length s1 + i)%nat.
Proof.
  intros Hi. induction s1 as [|a s1 IH]; simpl; [done|]. by rewrite IH.
Qed.

(** *** The callbacks, with a message that unpacks *)

(** [unpackSyscall<T>] with a message that unpacks: a URL without a dot
    ends the process with the invalid-name error; otherwise one line is
    printed, whose name is what follows the last dot of the URL and has no
    dot itself.  [substr] never throws there. *)
Theorem unpackSyscall_prints_after_last_dot T any evt w :
  UnpackTo T any = Some evt ->
  (occurs "." (type_url any) = false
   /\ unpackSyscall T any w = Stop (Err (invalid_name (type_url any))) w)
  \/ (exists pre name,
        type_url any = pre +:+ String "." name
        /\ occurs "." name = false
        /\ unpackSyscall T any w
           = Ret tt (say (Syscall_event (has_exit evt) name evt) w)).
Proof.
  intros Hu. unfold unpackSyscall. rewrite Hu.
  destruct (find_last_of (type_url any) ".") as [i|] eqn:Hi.
  - right. destruct (find_last_of_Some _ _ _ Hi) as (Hlt & Hocc & pre & Hpre).
    exists pre, (string_drop (S i) (type_url any)).
    split; [done|]. split; [done|].
    replace (i + 1)%nat with (S i) by lia.
    rewrite str_substr_Some by lia. done.
  - left. split; [by apply find_last_of_None|done].
Qed.

Lemma no_url_throw_bind {A B} (m : M A) (k : A -> M B) :
  no_url_throw m -> (forall a, no_url_throw (k a)) -> no_url_throw (m ≫= k).
Proof.
  intros Hm Hk w w'. unfold mbind, M_bind.
  destruct (m w) as [a w1|h w1] eqn:E; [apply Hk|].
  intros [= -> ->]. by apply (Hm w w').
Qed.

Lemma no_url_throw_invoke d any :
  (prefixLen <= String.length (type_url any))%nat ->
  no_url_throw (invoke d any).
Proof.
  intros Hlen w w'. unfold invoke, entered, unpackSyscall, unpack_any. run.
  destruct d as [T|T]; destruct (UnpackTo T any) as [evt|]; try done.
  - destruct (find_last_of (type_url any) ".") as [i|] eqn:Hi; [|done].
    apply find_last_of_Some in Hi as (Hlt & _).
    rewrite str_substr_Some by lia. done.
  - rewrite str_substr_Some by lia. done.
Qed.

Lemma no_url_throw_unpack buf : no_url_throw (unpack buf).
Proof.
  intros w w'. unfold unpack. run.
  destruct (load 4 0 buf) as [message_size|]; [|done].
  case_decide; [done|].
  destruct (load 2 4 buf) as [header_size|]; [|done].
  case_decide; [done|].
  destruct (sv_substr buf _) as [proto|]; [|done].
  case_decide; [done|].
  destruct (ParseFromArray proto) as [any|]; [|done].
  case_decide as Hlen; [done|].
  rewrite str_substr_Some by lia.
  unfold dispatchers_at.
  destruct (dispatchers w !! _) as [[d|]|]; try done.
  apply no_url_throw_invoke. lia.
Qed.

Lemma no_url_throw_handle_event ev rd : no_url_throw (handle_event ev rd).
Proof.
  intros w w'. rewrite handle_event_steps. unfold read_step.
  destruct (decide (readable ev)); [|done].
  destruct (decide (bytes rd < 0)); [done|].
  destruct (decide (bytes rd > 0)); [|done].
  destruct (unpack _ w) as [[] w1|h w1] eqn:E; [done|].
  intros [= -> ->]. by apply no_url_throw_unpack in E.
Qed.

(** Whatever the peers send, no [substr] on a URL is ever out of range:
    neither [unpack] nor a run of the poll loop ends in
    [std::out_of_range] thrown by [std::string::substr]. *)
Theorem url_substr_never_throws :
  (forall buf w w', unpack buf w ≠ Stop (Uncaught on_std_string) w')
  /\ (forall script w w',
        pollLoop script w ≠ Stop (Uncaught on_std_string) w').
Proof.
  split; [apply no_url_throw_unpack|].
  induction script as [|[errno|evts] script IH]; cbn [pollLoop]; try done.
  - intros w w'. case_decide; [apply IH|done].
  - apply no_url_throw_bind; [|done].
    clear IH. induction evts as [|[ev rd] evts IH]; cbn [handle_events].
    + done.
    + apply no_url_throw_bind; [apply no_url_throw_handle_event|done].
Qed.

(** *** Dispatch *)

Lemma dispatchers_init_Some name d :
  dispatchers_init !! name = Some (Some d) ->
  (name = "gvisor.syscall.Read"%string /\ d = fn_unpackSyscall Read)
  \/ (name = "gvisor.syscall.Open"%string /\ d = fn_unpackSyscall Open)
  \/ (name = "gvisor.container.Start"%string /\ d = fn_unpack Start).
Proof.
  unfold dispatchers_init.
  rewrite !lookup_insert_Some, lookup_singleton_Some.
  intros [[<- [= <-]]|[_ [[<- [= <-]]|[_ [<- [= <-]]]]]]; auto.
Qed.

Lemma unpack_invoke_registered
    buf proto (pfx name : string) (payload : list byte) d w :
  frame_payload buf = Some proto ->
  ParseFromArray proto = Some (mkAny (pfx +:+ name) payload) ->
  String.length pfx = prefixLen ->
  grown_by_empty dispatchers_init (dispatchers w) ->
  dispatchers_init !! name = Some (Some d) ->
  unpack buf w = invoke d (mkAny (pfx +:+ name) payload) w.
Proof.
  intros Hf Hp Hpfx Hinv Hreg.
  assert (0 < String.length name)%nat as Hname.
  { destruct (dispatchers_init_Some _ _ Hreg) as [[-> _]|[[-> _]|[-> _]]];
      simpl; lia. }
  assert (dispatchers w !! name = Some (Some d)) as Hw.
  { destruct (Hinv name) as [->|[E _]]; [done|]. by rewrite Hreg in E. }
  rewrite (unpack_passes _ _ _ Hf). unfold unpack_envelope.
  rewrite Hp. cbn [type_url].
  case_decide as Hlen; [rewrite length_string_app in Hlen; lia|].
  rewrite str_substr_Some by lia.
  rewrite <- Hpfx, string_drop_app.
  unfold dispatchers_at. run. by rewrite Hw.
Qed.

(** The name looked up is what follows the first [prefixLen] characters of
    the URL; the characters of the prefix are not compared with anything.
    For each name of the start-up table, [unpack] on a frame that passes the
    size checks is the call of the callback stored under that name. *)
Theorem unpack_dispatches_on_suffix
    buf proto (pfx name : string) (payload : list byte) d w :
  frame_payload buf = Some proto ->
  ParseFromArray proto = Some (mkAny (pfx +:+ name) payload) ->
  String.length pfx = prefixLen ->
  grown_by_empty dispatchers_init (dispatchers w) ->
  dispatchers_init !! name = Some (Some d) ->
  unpack buf w = invoke d (mkAny (pfx +:+ name) payload) w.
Proof. apply unpack_invoke_registered. Qed.

(** End to end, for a name of the start-up table and a message that
    unpacks: the callback is entered once and one line is printed.  A
    syscall point is printed under what follows the last dot of its name,
    with the exit flag; the container point under its full name. *)
Theorem unpack_registered_event_printed
    buf proto (pfx name : string) (payload : list byte) d evt w :
  frame_payload buf = Some proto ->
  ParseFromArray proto = Some (mkAny (pfx +:+ name) payload) ->
  String.length pfx = prefixLen ->
  grown_by_empty dispatchers_init (dispatchers w) ->
  dispatchers_init !! name = Some (Some d) ->
  UnpackTo (target d) (mkAny (pfx +:+ name) payload) = Some evt ->
  unpack buf w
  = Ret tt
      (World (dispatchers w) (clients w)
         (trace w
          ++ [Call d (mkAny (pfx +:+ name) payload);
              Print match d with
                    | fn_unpackSyscall _ =>
                        Syscall_event (has_exit evt) (after_last_dot name) evt
                    | fn_unpack _ => Unpacked_event name evt
                    end])).
Proof.
  intros Hf Hp Hpfx Hinv Hreg Hu.
  rewrite (unpack_invoke_registered _ _ _ _ _ _ _ Hf Hp Hpfx Hinv Hreg).
  assert (exists i, find_last_of name "." = Some i) as [i Hi].
  { destruct (dispatchers_init_Some _ _ Hreg) as [[-> _]|[[-> _]|[-> _]]];
      eexists; reflexivity. }
  unfold invoke, entered, unpackSyscall, unpack_any, printf. run.
  destruct d as [T|T]; simpl in Hu; rewrite Hu; cbn [type_url].
  - rewrite (find_last_of_app_r pfx _ _ _ Hi).
    apply find_last_of_Some in Hi as Hb. destruct Hb as (Hlt & _).
    rewrite str_substr_Some by (rewrite length_string_app; lia).
    replace (String.length pfx + i + 1)%nat
      with (String.length pfx + S i)%nat by lia.
    rewrite string_drop_app_plus. unfold after_last_dot. rewrite Hi.
    run. cbn [dispatchers clients trace]. by rewrite <- app_assoc.
  - rewrite str_substr_Some by (rewrite length_string_app; lia).
    rewrite <- Hpfx, string_drop_app.
    run. cbn [dispatchers clients trace]. by rewrite <- app_assoc.
Qed.

(** *** What one call of [unpack] adds to the output *)

Lemma invoke_trace_shape d any w :
  match invoke d any w with
  | Ret _ w' => exists l, trace w' = trace w ++ [Call d any; Print l]
  | Stop _ w' => trace w' = trace w ++ [Call d any]
  end.
Proof.
  unfold invoke, entered, unpackSyscall, unpack_any, printf. run.
  destruct d as [T|T]; destruct (UnpackTo T any) as [evt|]; try done.
  - destruct (find_last_of (type_url any) ".") as [i|]; [|done].
    destruct (str_substr _ _) as [name|]; run; [|done].
    cbn [trace]. rewrite <- app_assoc. by eexists.
  - destruct (str_substr _ _) as [name|]; run; [|done].
    cbn [trace]. rewrite <- app_assoc. by eexists.
Qed.

(** A call of [unpack] that returns has printed exactly one line, after
    entering at most one callback; one that stops the process has printed
    nothing.  So a view is answered by one line however many frames it
    holds, and no record is dropped silently. *)
Theorem unpack_trace_shape buf w :
  match unpack buf w with
  | Ret _ w' =>
      (exists l, trace w' = trace w ++ [Print l])
      \/ (exists d any l, trace w' = trace w ++ [Call d any; Print l])
  | Stop _ w' =>
      trace w' = trace w
      \/ (exists d any, trace w' = trace w ++ [Call d any])
  end.
Proof.
  unfold unpack. run. unfold printf.
  destruct (load 4 0 buf) as [message_size|]; [|by left].
  case_decide; [left; by eexists|].
  destruct (load 2 4 buf) as [header_size|]; [|by left].
  case_decide; [left; by eexists|].
  destruct (sv_substr buf _) as [proto|]; [|by left].
  case_decide; [left; by eexists|].
  destruct (ParseFromArray proto) as [any|]; [|by left].
  case_decide; [left; by eexists|].
  destruct (str_substr _ _) as [name|]; [|by left].
  unfold dispatchers_at.
  destruct (dispatchers w !! name) as [[d|]|].
  - pose proof (invoke_trace_shape d any w) as Hi.
    destruct (invoke d any w) as [[] w'|h w'].
    + destruct Hi as [l Hl]. right. by exists d, any, l.
    + right. by exists d, any.
  - left. by eexists.
  - left. by eexists.
Qed.

(** *** What the poll thread does to the clients and to the output *)

Section Preserved.
Context (R : world -> world -> Prop).
Context (R_refl : forall w, R w w).
Context (R_trans : forall w1 w2 w3, R w1 w2 -> R w2 w3 -> R w1 w3).
Context (R_printf : forall l, preserves R (printf l)).
Context (R_entered : forall d any, preserves R (entered d any)).
Context (R_at : forall name, preserves R (dispatchers_at name)).

Lemma preserves_ret {A} (a : A) : preserves R (mret a).
Proof. intros w. apply R_refl. Qed.

Lemma preserves_stop {A} h : preserves R (@stop _ A h).
Proof. intros w. apply R_refl. Qed.

Lemma preserves_bind {A B} (m : M A) (k : A -> M B) :
  preserves R m -> (forall a, preserves R (k a)) -> preserves R (m ≫= k).
Proof.
  intros Hm Hk w. unfold mbind, M_bind.
  specialize (Hm w). destruct (m w) as [a w'|h w']; simpl in *; [|done].
  eapply R_trans; [exact Hm|apply Hk].
Qed.

Ltac preserves_step :=
  match goal with
  | |- preserves _ (_ ≫= _) => apply preserves_bind; [|intros]
  | |- preserves _ (mret _) => apply preserves_ret
  | |- preserves _ (stop _) => apply preserves_stop
  | |- preserves _ (err _) => apply preserves_stop
  | |- preserves _ (printf _) => apply R_printf
  | |- preserves _ (entered _ _) => apply R_entered
  | |- preserves _ (dispatchers_at _) => apply R_at
  | |- preserves _ (load_at _ _ _) => unfold load_at
  | |- preserves _ (or_throw _ _) => unfold or_throw
  | |- preserves _ (if decide ?P then _ else _) => destruct (decide P)
  | |- preserves _ (match ?o with Some _ => _ | None => _ end) =>
      destruct o
  | |- preserves _ (match ?d with fn_unpackSyscall _ => _ | fn_unpack _ => _ end) =>
      destruct d
  end.

Lemma preserves_invoke d any : preserves R (invoke d any).
Proof. unfold invoke, unpackSyscall, unpack_any. repeat preserves_step. Qed.

Lemma preserves_unpack buf : preserves R (unpack buf).
Proof.
  unfold unpack. repeat preserves_step; apply preserves_invoke.
Qed.

Context (R_close : forall fd, preserves R (close fd)).

Lemma preserves_handle_event ev rd : preserves R (handle_event ev rd).
Proof.
  unfold handle_event.
  repeat preserves_step; by first [apply preserves_unpack|apply R_close].
Qed.

Lemma preserves_pollLoop script : preserves R (pollLoop script).
Proof.
  induction script as [|[errno|evts] script IH]; cbn [pollLoop].
  - apply preserves_ret.
  - case_decide; [done|apply preserves_stop].
  - apply preserves_bind; [|done].
    clear IH. induction evts as [|[ev rd] evts IH]; cbn [handle_events].
    + apply preserves_ret.
    + apply preserves_bind; [apply preserves_handle_event|done].
Qed.

End Preserved.

Lemma unpack_same_clients buf w : clients (world_of (unpack buf w)) = clients w.
Proof.
  apply (preserves_unpack same_clients); unfold same_clients, preserves.
  - done.
  - intros w1 w2 w3 H12 H23. by rewrite H23.
  - done.
  - done.
  - intros name w0. unfold dispatchers_at. by destruct (dispatchers w0 !! _).
Qed.

(** The poll thread never registers a descriptor and never takes back
    output: [unpack] leaves the clients as they are, a run of the poll loop
    can only remove clients, and the output of a run extends the output
    before it. *)
Theorem poll_thread_only_closes_and_appends :
  (forall buf w, clients (world_of (unpack buf w)) = clients w)
  /\ (forall script w, clients (world_of (pollLoop script w)) ⊆ clients w)
  /\ (forall script w,
        exists t, trace (world_of (pollLoop script w)) = trace w ++ t).
Proof.
  split; [apply unpack_same_clients|]. split.
  - intros script w.
    apply (preserves_pollLoop fewer_clients); unfold fewer_clients, preserves.
    + done.
    + intros w1 w2 w3 H12 H23. by etrans.
    + done.
    + done.
    + intros name w0. unfold dispatchers_at. by destruct (dispatchers w0 !! _).
    + intros fd w0. cbn. apply subseteq_difference_l. done.
  - intros script w.
    apply (preserves_pollLoop longer_trace); unfold longer_trace, preserves;
      cbn [world_of trace printf entered close dispatchers_at].
    + intros ?. exists []. by rewrite app_nil_r.
    + intros ??? [t1 ->] [t2 ->]. exists (t1 ++ t2). by rewrite app_assoc.
    + intros ??. by eexists.
    + intros ???. by eexists.
    + intros ? w0. unfold dispatchers_at.
      destruct (dispatchers w0 !! _); exists []; by rewrite app_nil_r.
    + intros ??. exists []. by rewrite app_nil_r.
Qed.

Lemma handle_event_clients ev rd w :
  clients (world_of (handle_event ev rd w)) = clients w
  \/ (hangup ev
      /\ clients (world_of (handle_event ev rd w))
         = clients w ∖ {[data_fd ev]}).
Proof.
  rewrite handle_event_steps.
  assert (clients (world_of (read_step ev rd w)) = clients w) as Hr.
  { unfold read_step. repeat case_decide; try done. apply unpack_same_clients. }
  destruct (read_step ev rd w) as [[] w1|h w1]; cbn [world_of] in *; [|by left].
  unfold after_read. destruct (decide (hangup ev)).
  - right. split; [done|].
    destruct (decide (Z.land (events ev) EPOLLERR ≠ 0)); cbn; by rewrite Hr.
  - left. by destruct (decide (Z.land (events ev) EPOLLERR ≠ 0)).
Qed.

Lemma handle_events_keeps_client evts w fd :
  fd ∈ clients w ->
  fd ∉ data_fd <$> filter hangup (fst <$> evts) ->
  fd ∈ clients (world_of (handle_events evts w)).
Proof.
  revert w. induction evts as [|[ev rd] evts IH]; intros w Hin Hnot;
    cbn [handle_events]; [done|].
  unfold mbind, M_bind.
  assert (fd ∈ clients (world_of (handle_event ev rd w))) as Hstep.
  { destruct (handle_event_clients ev rd w) as [->|[Hup ->]]; [done|].
    apply elem_of_difference. split; [done|].
    intros ->%elem_of_singleton. apply Hnot.
    cbn [fmap list_fmap fst]. rewrite filter_cons_True by done.
    apply list_elem_of_here. }
  destruct (handle_event ev rd w) as [[] w1|h w1]; cbn [world_of] in *;
    [|done].
  apply IH; [done|]. intros Hel. apply Hnot.
  cbn [fmap list_fmap fst]. destruct (decide (hangup ev)).
  - rewrite filter_cons_True by done. by apply list_elem_of_further.
  - by rewrite filter_cons_False.
Qed.

(** Connections are independent: over a run of the poll loop a client stays
    registered unless one of the events carries a hang-up bit for its own
    descriptor.  Reads, malformed records and hang-ups of other clients do
    not close it. *)
Theorem client_closed_only_by_its_hangup script w fd :
  fd ∈ clients w ->
  fd ∉ hung_up script ->
  fd ∈ clients (world_of (pollLoop script w)).
Proof.
  revert w. induction script as [|[errno|evts] script IH]; intros w Hin Hnot;
    cbn [pollLoop hung_up] in *; [done| |].
  - case_decide; [by apply IH|done].
  - rewrite elem_of_app in Hnot.
    unfold mbind, M_bind.
    pose proof (handle_events_keeps_client evts w fd Hin) as Hstep.
    destruct (handle_events evts w) as [[] w1|h w1]; cbn [world_of] in *.
    + apply IH; [apply Hstep|]; tauto.
    + apply Hstep. tauto.
Qed.

(** *** Wakeups *)

(** Interrupted waits are invisible: removing the [EINTR] failures from a
    script changes nothing in the run. *)
Theorem pollLoop_ignores_interrupts script w :
  pollLoop (filter (fun k => ¬ interrupted_wait k) script) w
  = pollLoop script w.
Proof.
  revert w. induction script as [|[errno|evts] script IH]; intros w; [done| |].
  - destruct (decide (errno = EINTR)) as [->|Hne].
    + rewrite filter_cons_False by (simpl; tauto).
      cbn [pollLoop]. rewrite decide_True by done. apply IH.
    + rewrite filter_cons_True by (simpl; tauto).
      cbn [pollLoop]. by rewrite !decide_False by done.
  - rewrite filter_cons_True by (simpl; tauto).
    cbn [pollLoop]. unfold mbind, M_bind.
    destruct (handle_events evts w); [apply IH|done].
Qed.

(** Runs compose: a script run in two parts gives the run of the whole, and
    once a part has stopped the process nothing that follows is handled. *)
Theorem pollLoop_app script1 script2 w :
  pollLoop (script1 ++ script2) w
  = match pollLoop script1 w with
    | Ret _ w' => pollLoop script2 w'
    | Stop h w' => Stop h w'
    end.
Proof.
  revert w. induction script1 as [|[errno|evts] script1 IH]; intros w;
    cbn [app pollLoop]; [done| |].
  - case_decide; [apply IH|done].
  - unfold mbind, M_bind. destruct (handle_events evts w); [apply IH|done].
Qed.

(** *** The main thread *)

Lemma acceptLoop_interrupted a rest s :
  Acceptor.interrupted a ->
  Acceptor.acceptLoop (a :: rest) s = Acceptor.acceptLoop rest s.
Proof.
  intros [Hc He]. cbn [Acceptor.acceptLoop].
  rewrite decide_True by done. by rewrite decide_True by done.
Qed.

(** Interrupted calls of [accept] are invisible: removing the [EINTR]
    failures from a script changes nothing in the run of the accept loop. *)
Theorem acceptLoop_ignores_interrupts script s :
  Acceptor.acceptLoop (filter (fun a => ¬ Acceptor.interrupted a) script) s
  = Acceptor.acceptLoop script s.
Proof.
  revert s. induction script as [|a script IH]; intros s; [done|].
  destruct (decide (Acceptor.interrupted a)) as [Hi|Hi].
  - rewrite filter_cons_False by tauto.
    by rewrite acceptLoop_interrupted.
  - rewrite filter_cons_True by done. cbn [Acceptor.acceptLoop].
    unfold Acceptor.interrupted in Hi.
    destruct (decide (Acceptor.client a < 0)).
    + destruct (decide (Acceptor.errno a = EINTR)); [tauto|done].
    + destruct (decide (Acceptor.epoll_ctl_ret a < 0)); [done|apply IH].
Qed.

Lemma acceptLoop_Running_inv script s s' :
  Acceptor.acceptLoop script s = Acceptor.Running s' ->
  Forall (fun a => (Acceptor.client a < 0 -> Acceptor.errno a = EINTR)
                   /\ (0 <= Acceptor.client a -> 0 <= Acceptor.epoll_ctl_ret a))
    script
  /\ Acceptor.registered s'
     = list_to_set (Acceptor.accepted script) ∪ Acceptor.registered s
  /\ Acceptor.out s'
     = Acceptor.out s
       ++ replicate (length (Acceptor.accepted script))
            Acceptor.Connection_accepted.
Proof.
  revert s. induction script as [|a script IH]; intros s;
    cbn [Acceptor.acceptLoop].
  - intros [= <-]. split; [done|]. split.
    + cbn. by rewrite (left_id_L ∅ (∪)).
    + cbn. by rewrite app_nil_r.
  - unfold Acceptor.accepted in *.
    destruct (decide (Acceptor.client a < 0)).
    + destruct (decide (Acceptor.errno a = EINTR)); [|done].
      intros (HF & Hr & Ho)%IH.
      rewrite filter_cons_False by lia.
      split; [|done]. constructor; [|done]. split; [done|lia].
    + destruct (decide (Acceptor.epoll_ctl_ret a < 0)); [done|].
      intros (HF & Hr & Ho)%IH. cbn in Hr, Ho.
      rewrite filter_cons_True by lia. cbn [fmap list_fmap length replicate].
      split; [|split].
      * constructor; [|done]. split; lia.
      * rewrite Hr. cbn [list_to_set].
        by rewrite (assoc_L (∪)), (comm_L (∪) (list_to_set _)).
      * rewrite Ho, <- app_assoc. done.
Qed.

(** While the accept loop is still running, every failure of [accept] was
    an interruption, every [epoll_ctl] succeeded, the registered descriptors
    are those it started with and the ones [accept] returned, and one line
    was printed per accepted connection. *)
Theorem acceptLoop_running script s s' :
  Acceptor.acceptLoop script s = Acceptor.Running s' ->
  Forall (fun a => (Acceptor.client a < 0 -> Acceptor.errno a = EINTR)
                   /\ (0 <= Acceptor.client a -> 0 <= Acceptor.epoll_ctl_ret a))
    script
  /\ Acceptor.registered s'
     = list_to_set (Acceptor.accepted script) ∪ Acceptor.registered s
  /\ Acceptor.out s'
     = Acceptor.out s
       ++ replicate (length (Acceptor.accepted script))
            Acceptor.Connection_accepted.
Proof. apply acceptLoop_Running_inv. Qed.


(** A socket path of 108 bytes or more does not fit [sun_path]: [strncpy]
    is asked to store the path and its terminator, and writes past the end
    of the field, before [bind] is called. *)
Theorem main_long_path_overflows argv k script (path : string) :
  argv !! 1%nat = Some path ->
  0 <= Acceptor.socket_ret k ->
  (Acceptor.sun_path_size <= String.length path)%nat ->
  Acceptor.main argv k script
  = Acceptor.Stopped (Acceptor.WritePastEnd (String.length path + 1))
      (Acceptor.State ∅ [Acceptor.Socket_address path]).
Proof.
  intros Harg Hsock Hlen. unfold Acceptor.main.
  destruct argv as [|prog [|arg argv]]; try done.
  injection Harg as ->.
  rewrite decide_False by lia. by rewrite decide_True by lia.
Qed.

(** A connection that was accepted and registered, and whose descriptor was
    not registered before, is taken out again by its hang-up event: the
    registered descriptors are back to what they were. *)
Theorem accepted_client_closed_by_hangup a s ev rd w :
  0 <= Acceptor.client a ->
  0 <= Acceptor.epoll_ctl_ret a ->
  Acceptor.client a ∉ Acceptor.registered s ->
  clients w
  = Acceptor.registered (Acceptor.state_of (Acceptor.acceptLoop [a] s)) ->
  hangup ev ->
  data_fd ev = Acceptor.client a ->
  (¬ readable ev \/ bytes rd = 0) ->
  exists w', handle_event ev rd w = Ret tt w'
             /\ clients w' = Acceptor.registered s.
Proof.
  intros Hc He Hfresh Hw Hup Hfd Hread.
  cbn [Acceptor.acceptLoop] in Hw.
  rewrite decide_False in Hw by lia. rewrite decide_False in Hw by lia.
  cbn in Hw.
  exists (after_read ev w). split.
  - rewrite handle_event_steps. unfold read_step.
    destruct (decide (readable ev)); [|done].
    destruct Hread as [?|Hz]; [done|].
    destruct (decide (bytes rd < 0)); [lia|].
    destruct (decide (bytes rd > 0)); [lia|done].
  - unfold after_read. destruct (decide (hangup ev)); [|done].
    assert (clients w ∖ {[data_fd ev]} = Acceptor.registered s) as Hset.
    { rewrite Hw, Hfd, difference_union_distr_l_L, difference_diag_L.
      rewrite (left_id_L ∅ (∪)). apply difference_disjoint_L.
      by apply disjoint_singleton_r. }
    by destruct (decide (Z.land (events ev) EPOLLERR ≠ 0)).
Qed.

End Properties.

(** ** The properties on concrete runs

    The runs below use the reference implementation of the protobuf
    interface. *)

#[local] Existing Instance Wire.reference.

Lemma unpack_start_frame_dispatched_witness :
  4 + 6 + Z.of_nat (length start_envelope) <= maxEventSize
  /\ ParseFromArray start_envelope
     = Some (mkAny "type.googleapis.com/gvisor.container.Start" [x08; x01])
  /\ grown_by_empty dispatchers_init (dispatchers world0)
  /\ dispatchers_init !! "gvisor.container.Start"%string
     = Some (Some (fn_unpack Start))
  /\ calls (trace (world_of (unpack (frame 6 0 start_envelope) world0)))
     = calls (trace world0)
       ++ [(fn_unpack Start,
            mkAny "type.googleapis.com/gvisor.container.Start" [x08; x01])].
Proof.
  assert (4 + 6 + Z.of_nat (length start_envelope) <= maxEventSize) as H1
    by (vm_compute; discriminate).
  assert (ParseFromArray start_envelope
          = Some (mkAny "type.googleapis.com/gvisor.container.Start"
                    [x08; x01])) as H2 by reflexivity.
  pose proof (grown_by_empty_refl dispatchers_init) as H3.
  split; [exact H1|]. split; [exact H2|]. split; [exact H3|].
  exact (unpack_start_frame_dispatched start_envelope [x08; x01] world0
           H1 H2 H3).
Defined.

Lemma unpack_short_url_dropped_witness :
  frame_payload (frame 6 0 short_url_envelope) = Some short_url_envelope
  /\ ParseFromArray short_url_envelope = Some (mkAny "short/url" [])
  /\ (String.length "short/url" <= prefixLen)%nat
  /\ unpack (frame 6 0 short_url_envelope) world0
     = Ret tt (say (Invalid_URL "short/url") world0).
Proof.
  assert (frame_payload (frame 6 0 short_url_envelope)
          = Some short_url_envelope) as H1 by reflexivity.
  assert (ParseFromArray short_url_envelope = Some (mkAny "short/url" []))
    as H2 by reflexivity.
  assert (String.length "short/url" <= prefixLen)%nat as H3
    by (vm_compute; lia).
  split; [exact H1|]. split; [exact H2|]. split; [exact H3|].
  exact (unpack_short_url_dropped (frame 6 0 short_url_envelope)
           short_url_envelope (mkAny "short/url" []) world0 H1 H2 H3).
Defined.

Lemma unpack_unregistered_name_logged_witness :
  frame_payload (frame 6 0 unknown_envelope) = Some unknown_envelope
  /\ ParseFromArray unknown_envelope
     = Some (mkAny "type.googleapis.com/unknown.Type" [])
  /\ (prefixLen < String.length "type.googleapis.com/unknown.Type")%nat
  /\ grown_by_empty dispatchers_init (dispatchers world0)
  /\ dispatchers_init !! "unknown.Type"%string = None
  /\ unpack (frame 6 0 unknown_envelope) world0
     = Ret tt (World (<["unknown.Type"%string := None]> dispatchers_init) ∅
                 [Print (No_callback_registered_for "unknown.Type")]).
Proof.
  assert (frame_payload (frame 6 0 unknown_envelope) = Some unknown_envelope)
    as H1 by reflexivity.
  assert (ParseFromArray unknown_envelope
          = Some (mkAny "type.googleapis.com/unknown.Type" []))
    as H2 by reflexivity.
  assert (prefixLen < String.length "type.googleapis.com/unknown.Type")%nat
    as H3 by (vm_compute; lia).
  pose proof (grown_by_empty_refl dispatchers_init) as H4.
  assert (dispatchers_init !! "unknown.Type"%string = None) as H5
    by reflexivity.
  split; [exact H1|]. split; [exact H2|]. split; [exact H3|].
  split; [exact H4|]. split; [exact H5|].
  exact (proj1 (unpack_unregistered_name_logged (frame 6 0 unknown_envelope)
                  unknown_envelope
                  (mkAny "type.googleapis.com/unknown.Type" []) world0
                  H1 H2 H3 H4 H5)).
Defined.

Lemma unpack_invalid_proto_is_fatal_witness :
  frame_payload (frame 6 0 [xff]) = Some [xff]
  /\ ParseFromArray [xff] = None
  /\ unpack (frame 6 0 [xff]) world0 = Stop (Err invalid_proto_message) world0.
Proof.
  assert (frame_payload (frame 6 0 [xff]) = Some [xff]) as H1 by reflexivity.
  assert (ParseFromArray [xff] = None) as H2 by reflexivity.
  split; [exact H1|]. split; [exact H2|].
  exact (proj1 (unpack_invalid_proto_is_fatal (frame 6 0 [xff]) [xff] world0
                  H1 H2)).
Defined.

Lemma unpack_empty_payload_dropped_witness :
  load 4 0 (frame 6 0 []) = Some 10
  /\ load 2 4 (frame 6 0 []) = Some 6
  /\ 10 = 4 + 6
  /\ unpack (frame 6 0 []) world0
     = Ret tt (say (Header_size_is_larger_than_message 6 10) world0)
  /\ frame_payload (frame 6 0 []) = None.
Proof.
  assert (load 4 0 (frame 6 0 []) = Some 10) as H1 by reflexivity.
  assert (load 2 4 (frame 6 0 []) = Some 6) as H2 by reflexivity.
  assert (10 = 4 + 6) as H3 by reflexivity.
  split; [exact H1|]. split; [exact H2|]. split; [exact H3|].
  exact (proj2 (unpack_empty_payload_dropped (frame 6 0 []) world0 10 6
                  H1 H2 H3)).
Defined.

Lemma registered_decoder_unpack_failure_is_fatal_witness :
  dispatchers_init !! "gvisor.syscall.Read"%string
  = Some (Some (fn_unpackSyscall Read))
  /\ UnpackTo Read (mkAny "type.googleapis.com/gvisor.syscall.Read" [xff])
     = None
  /\ unpackSyscall Read
       (mkAny "type.googleapis.com/gvisor.syscall.Read" [xff]) world0
     = Stop (Err (UnpackTo_failed
                    (mkAny "type.googleapis.com/gvisor.syscall.Read" [xff])))
         world0.
Proof.
  assert (dispatchers_init !! "gvisor.syscall.Read"%string
          = Some (Some (fn_unpackSyscall Read))) as H1 by reflexivity.
  assert (UnpackTo Read
            (mkAny "type.googleapis.com/gvisor.syscall.Read" [xff]) = None)
    as H2 by reflexivity.
  split; [exact H1|]. split; [exact H2|].
  exact (proj1 (registered_decoder_unpack_failure_is_fatal
                  "gvisor.syscall.Read" (fn_unpackSyscall Read)
                  (mkAny "type.googleapis.com/gvisor.syscall.Read" [xff])
                  world0 H1 H2)).
Defined.

Lemma handle_event_connection_states_witness :
  hangup {| events := EPOLLHUP; data_fd := 5 |}
  /\ (exists w',
        handle_event {| events := EPOLLHUP; data_fd := 5 |}
          {| bytes := 0; stored := [] |} one_client = Ret tt w'
        /\ clients w' = clients one_client ∖ {[5]})
  /\ readable {| events := EPOLLIN; data_fd := 5 |}
  /\ handle_event {| events := EPOLLIN; data_fd := 5 |}
       {| bytes := -1; stored := [] |} one_client
     = Stop (Err read_failed) one_client
  /\ ¬ hangup {| events := EPOLLIN; data_fd := 5 |}
  /\ (exists w',
        handle_event {| events := EPOLLIN; data_fd := 5 |}
          {| bytes := 0; stored := [] |} one_client = Ret tt w'
        /\ clients w' = clients one_client
        /\ dispatchers w' = dispatchers one_client
        /\ calls (trace w') = calls (trace one_client)).
Proof.
  assert (¬ hangup {| events := EPOLLIN; data_fd := 5 |}) as H3
    by (vm_compute; intros H; by apply H).
  assert (hangup {| events := EPOLLHUP; data_fd := 5 |}) as H1
    by (vm_compute; discriminate).
  assert (readable {| events := EPOLLIN; data_fd := 5 |}) as H2
    by (vm_compute; discriminate).
  split; [exact H1|]. split; [|split; [exact H2|split; [|split; [exact H3|]]]].
  - exact (proj2 (proj1 (handle_event_connection_states
                           {| events := EPOLLHUP; data_fd := 5 |}
                           {| bytes := 0; stored := [] |} one_client) H1)
             (or_intror eq_refl)).
  - exact (proj1 (proj2 (handle_event_connection_states
                           {| events := EPOLLIN; data_fd := 5 |}
                           {| bytes := -1; stored := [] |} one_client))
             H2 eq_refl).
  - exact (proj2 (proj2 (handle_event_connection_states
                           {| events := EPOLLIN; data_fd := 5 |}
                           {| bytes := 0; stored := [] |} one_client))
             H2 eq_refl H3).
Defined.

(** C3, as the spec has it, fails: a frame naming [unknown.Type], unpacked
    in the process as started, leaves a map that is not the one built at
    start-up; it has one more key. *)
Lemma dispatchers_mutated_by_lookup :
  unpack (frame 6 0 unknown_envelope) world0
  = Ret tt (World (<["unknown.Type"%string := None]> dispatchers_init) ∅
              [Print (No_callback_registered_for "unknown.Type")])
  /\ dispatchers_init !! "unknown.Type"%string = None
  /\ <["unknown.Type"%string := None]> dispatchers_init !! "unknown.Type"%string
     = Some None
  /\ <["unknown.Type"%string := None]> dispatchers_init ≠ dispatchers_init.
Proof.
  split; [by vm_compute|]. split; [reflexivity|]. split; [reflexivity|].
  intros Heq.
  apply (f_equal (fun m : gmap string Callback => m !! "unknown.Type"%string))
    in Heq.
  vm_compute in Heq. discriminate.
Qed.

(** C5, as the spec has it, fails: the client is readable and [read]
    returns 0, with no hang-up bit in the event.  The loop body does
    nothing: the descriptor is still open and registered. *)
Lemma zero_length_read_keeps_connection :
  handle_event {| events := EPOLLIN; data_fd := 5 |}
    {| bytes := 0; stored := [] |} one_client
  = Ret tt one_client
  /\ 5 ∈ clients one_client.
Proof.
  split; [reflexivity|]. by apply elem_of_singleton.
Qed.

(** *** Concrete runs of the further properties *)

Lemma unpack_oversized_rejected_witness :
  load 4 0 oversized_view = Some 307201
  /\ 307201 > maxEventSize
  /\ unpack oversized_view world0
     = Ret tt (say (Invalid_header_size 307201) world0).
Proof.
  assert (load 4 0 oversized_view = Some 307201) as H1 by reflexivity.
  assert (307201 > maxEventSize) as H2 by reflexivity.
  split; [exact H1|]. split; [exact H2|].
  exact (proj1 (unpack_oversized_rejected oversized_view world0 307201 H1 H2)).
Defined.

Lemma unpack_truncated_reported_witness :
  load 4 0 truncated_view = Some 20
  /\ load 2 4 truncated_view = Some 6
  /\ 20 <= maxEventSize
  /\ 4 + 6 < 20
  /\ 4 + 6 <= Z.of_nat (length truncated_view) < 20
  /\ unpack truncated_view world0
     = Ret tt (say (Message_was_truncated
                      (Z.of_nat (length truncated_view) - 4 - 6)
                      (20 - 4 - 6)) world0).
Proof.
  assert (load 4 0 truncated_view = Some 20) as H1 by reflexivity.
  assert (load 2 4 truncated_view = Some 6) as H2 by reflexivity.
  assert (20 <= maxEventSize) as H3 by (vm_compute; discriminate).
  assert (4 + 6 < 20) as H4 by reflexivity.
  assert (4 + 6 <= Z.of_nat (length truncated_view) < 20) as H5
    by (simpl; lia).
  split; [exact H1|]. split; [exact H2|]. split; [exact H3|].
  split; [exact H4|]. split; [exact H5|].
  exact (unpack_truncated_reported truncated_view world0 20 6 H1 H2 H3 H4 H5).
Defined.

Lemma unpack_header_beyond_view_throws_witness :
  load 4 0 header_beyond_view = Some 20
  /\ load 2 4 header_beyond_view = Some 32
  /\ 20 <= maxEventSize
  /\ 20 ≠ 4 + 32
  /\ Z.of_nat (length header_beyond_view) < 4 + 32
  /\ unpack header_beyond_view world0 = Stop (Uncaught on_string_view) world0.
Proof.
  assert (load 4 0 header_beyond_view = Some 20) as H1 by reflexivity.
  assert (load 2 4 header_beyond_view = Some 32) as H2 by reflexivity.
  assert (20 <= maxEventSize) as H3 by (vm_compute; discriminate).
  assert (20 ≠ 4 + 32) as H4 by lia.
  assert (Z.of_nat (length header_beyond_view) < 4 + 32) as H5
    by (simpl; lia).
  split; [exact H1|]. split; [exact H2|]. split; [exact H3|].
  split; [exact H4|]. split; [exact H5|].
  exact (proj1 (unpack_header_beyond_view_throws header_beyond_view world0
                  20 32 H1 H2 H3 H4 H5)).
Defined.

Lemma size_checks_pass_iff_witness :
  Z.of_nat (length (frame 6 0 start_envelope)) <= maxEventSize
  /\ exists message_size header_size,
       load 4 0 (frame 6 0 start_envelope) = Some message_size
       /\ load 2 4 (frame 6 0 start_envelope) = Some header_size
       /\ 4 + header_size < message_size
          <= Z.of_nat (length (frame 6 0 start_envelope))
       /\ start_envelope
          = drop (Z.to_nat (4 + header_size)) (frame 6 0 start_envelope).
Proof.
  assert (Z.of_nat (length (frame 6 0 start_envelope)) <= maxEventSize) as H1
    by (vm_compute; discriminate).
  split; [exact H1|].
  exact (proj1 (proj1 (size_checks_pass_iff (frame 6 0 start_envelope)
                          start_envelope H1)) eq_refl).
Defined.

Lemma unpack_parses_to_end_of_view_witness :
  start_envelope ≠ []
  /\ 4 + 6 + Z.of_nat (length (start_envelope ++ frame 6 0 unknown_envelope))
     <= maxEventSize
  /\ frame_payload (frame 6 0 start_envelope ++ frame 6 0 unknown_envelope)
     = Some (start_envelope ++ frame 6 0 unknown_envelope)
  /\ unpack (frame 6 0 start_envelope ++ frame 6 0 unknown_envelope) world0
     = unpack (frame 6 0 (start_envelope ++ frame 6 0 unknown_envelope)) world0.
Proof.
  assert (start_envelope ≠ []) as H1 by discriminate.
  assert (4 + 6
          + Z.of_nat (length (start_envelope ++ frame 6 0 unknown_envelope))
          <= maxEventSize) as H2 by (vm_compute; discriminate).
  split; [exact H1|]. split; [exact H2|].
  exact (unpack_parses_to_end_of_view 0 start_envelope
           (frame 6 0 unknown_envelope) world0 H1 H2).
Defined.

Lemma unpackSyscall_prints_after_last_dot_witness :
  UnpackTo Read (mkAny "type.googleapis.com/gvisor.syscall.Read" [x12; x00])
  = Some [(2, Some [])]
  /\ ((occurs "." "type.googleapis.com/gvisor.syscall.Read" = false
       /\ unpackSyscall Read
            (mkAny "type.googleapis.com/gvisor.syscall.Read" [x12; x00]) world0
          = Stop (Err (invalid_name "type.googleapis.com/gvisor.syscall.Read"))
              world0)
      \/ (exists pre name,
            "type.googleapis.com/gvisor.syscall.Read"%string
            = pre +:+ String "." name
            /\ occurs "." name = false
            /\ unpackSyscall Read
                 (mkAny "type.googleapis.com/gvisor.syscall.Read" [x12; x00])
                 world0
               = Ret tt (say (Syscall_event (has_exit [(2, Some [])]) name
                                [(2, Some [])]) world0))).
Proof.
  assert (UnpackTo Read
            (mkAny "type.googleapis.com/gvisor.syscall.Read" [x12; x00])
          = Some [(2, Some [])]) as H1 by reflexivity.
  split; [exact H1|].
  exact (unpackSyscall_prints_after_last_dot Read
           (mkAny "type.googleapis.com/gvisor.syscall.Read" [x12; x00])
           [(2, Some [])] world0 H1).
Defined.

Lemma unpack_dispatches_on_suffix_witness :
  frame_payload (frame 6 0 read_exit_envelope) = Some read_exit_envelope
  /\ ParseFromArray read_exit_envelope
     = Some (mkAny ("type.googleapis.com/" +:+ "gvisor.syscall.Read")
               [x12; x00])
  /\ String.length "type.googleapis.com/" = prefixLen
  /\ grown_by_empty dispatchers_init (dispatchers world0)
  /\ dispatchers_init !! "gvisor.syscall.Read"%string
     = Some (Some (fn_unpackSyscall Read))
  /\ unpack (frame 6 0 read_exit_envelope) world0
     = invoke (fn_unpackSyscall Read)
         (mkAny ("type.googleapis.com/" +:+ "gvisor.syscall.Read") [x12; x00])
         world0.
Proof.
  assert (frame_payload (frame 6 0 read_exit_envelope)
          = Some read_exit_envelope) as H1 by reflexivity.
  assert (ParseFromArray read_exit_envelope
          = Some (mkAny ("type.googleapis.com/" +:+ "gvisor.syscall.Read")
                    [x12; x00])) as H2 by reflexivity.
  assert (String.length "type.googleapis.com/" = prefixLen) as H3
    by reflexivity.
  pose proof (grown_by_empty_refl dispatchers_init) as H4.
  assert (dispatchers_init !! "gvisor.syscall.Read"%string
          = Some (Some (fn_unpackSyscall Read))) as H5 by reflexivity.
  split; [exact H1|]. split; [exact H2|]. split; [exact H3|].
  split; [exact H4|]. split; [exact H5|].
  exact (unpack_dispatches_on_suffix (frame 6 0 read_exit_envelope)
           read_exit_envelope "type.googleapis.com/" "gvisor.syscall.Read"
           [x12; x00] (fn_unpackSyscall Read) world0 H1 H2 H3 H4 H5).
Defined.

Lemma unpack_registered_event_printed_witness :
  frame_payload (frame 6 0 read_exit_envelope) = Some read_exit_envelope
  /\ ParseFromArray read_exit_envelope
     = Some (mkAny ("type.googleapis.com/" +:+ "gvisor.syscall.Read")
               [x12; x00])
  /\ String.length "type.googleapis.com/" = prefixLen
  /\ grown_by_empty dispatchers_init (dispatchers world0)
  /\ dispatchers_init !! "gvisor.syscall.Read"%string
     = Some (Some (fn_unpackSyscall Read))
  /\ UnpackTo Read
       (mkAny ("type.googleapis.com/" +:+ "gvisor.syscall.Read") [x12; x00])
     = Some [(2, Some [])]
  /\ unpack (frame 6 0 read_exit_envelope) world0
     = Ret tt
         (World dispatchers_init ∅
            [Call (fn_unpackSyscall Read)
               (mkAny "type.googleapis.com/gvisor.syscall.Read" [x12; x00]);
             Print (Syscall_event true "Read" [(2, Some [])])]).
Proof.
  assert (frame_payload (frame 6 0 read_exit_envelope)
          = Some read_exit_envelope) as H1 by reflexivity.
  assert (ParseFromArray read_exit_envelope
          = Some (mkAny ("type.googleapis.com/" +:+ "gvisor.syscall.Read")
                    [x12; x00])) as H2 by reflexivity.
  assert (String.length "type.googleapis.com/" = prefixLen) as H3
    by reflexivity.
  pose proof (grown_by_empty_refl dispatchers_init) as H4.
  assert (dispatchers_init !! "gvisor.syscall.Read"%string
          = Some (Some (fn_unpackSyscall Read))) as H5 by reflexivity.
  assert (UnpackTo Read
            (mkAny ("type.googleapis.com/" +:+ "gvisor.syscall.Read")
               [x12; x00])
          = Some [(2, Some [])]) as H6 by reflexivity.
  split; [exact H1|]. split; [exact H2|]. split; [exact H3|].
  split; [exact H4|]. split; [exact H5|]. split; [exact H6|].
  exact (unpack_registered_event_printed (frame 6 0 read_exit_envelope)
           read_exit_envelope "type.googleapis.com/" "gvisor.syscall.Read"
           [x12; x00] (fn_unpackSyscall Read) [(2, Some [])] world0
           H1 H2 H3 H4 H5 H6).
Defined.

Lemma client_closed_only_by_its_hangup_witness :
  (5 ∈ clients two_clients)
  /\ (5 ∉ hung_up [wait_ready [({| events := EPOLLHUP; data_fd := 7 |},
                                 {| bytes := 0; stored := [] |})]])
  /\ (5 ∈ clients (world_of
                     (pollLoop
                        [wait_ready [({| events := EPOLLHUP; data_fd := 7 |},
                                      {| bytes := 0; stored := [] |})]]
                        two_clients))).
Proof.
  assert (5 ∈ clients two_clients) as H1
    by (apply (bool_decide_unpack _); vm_compute; exact I).
  assert (5 ∉ hung_up [wait_ready [({| events := EPOLLHUP; data_fd := 7 |},
                                    {| bytes := 0; stored := [] |})]]) as H2
    by (apply (bool_decide_unpack _); vm_compute; exact I).
  split; [exact H1|]. split; [exact H2|].
  exact (client_closed_only_by_its_hangup _ two_clients 5 H1 H2).
Defined.

Lemma acceptLoop_running_witness :
  Acceptor.acceptLoop accept_script (Acceptor.State ∅ [])
  = Acceptor.Running
      (Acceptor.State {[5; 7]}
         [Acceptor.Connection_accepted; Acceptor.Connection_accepted])
  /\ Acceptor.registered
       (Acceptor.State {[5; 7]}
          [Acceptor.Connection_accepted; Acceptor.Connection_accepted])
     = list_to_set (Acceptor.accepted accept_script) ∪ ∅.
Proof.
  assert (Acceptor.acceptLoop accept_script (Acceptor.State ∅ [])
          = Acceptor.Running
              (Acceptor.State {[5; 7]}
                 [Acceptor.Connection_accepted; Acceptor.Connection_accepted]))
    as H1 by (vm_compute; reflexivity).
  split; [exact H1|].
  exact (proj1 (proj2 (acceptLoop_running accept_script (Acceptor.State ∅ [])
                         _ H1))).
Defined.


Lemma main_long_path_overflows_witness :
  ["server"; long_path]%string !! 1%nat = Some long_path
  /\ 0 <= Acceptor.socket_ret startup_ok
  /\ (Acceptor.sun_path_size <= String.length long_path)%nat
  /\ Acceptor.main ["server"; long_path]%string startup_ok accept_script
     = Acceptor.Stopped (Acceptor.WritePastEnd (String.length long_path + 1))
         (Acceptor.State ∅ [Acceptor.Socket_address long_path]).
Proof.
  assert (["server"; long_path]%string !! 1%nat = Some long_path) as H1
    by reflexivity.
  assert (0 <= Acceptor.socket_ret startup_ok) as H2 by (simpl; lia).
  assert (Acceptor.sun_path_size <= String.length long_path)%nat as H3
    by (vm_compute; lia).
  split; [exact H1|]. split; [exact H2|]. split; [exact H3|].
  exact (main_long_path_overflows ["server"; long_path]%string startup_ok
           accept_script long_path H1 H2 H3).
Defined.

Lemma accepted_client_closed_by_hangup_witness :
  0 <= 5
  /\ 0 <= 0
  /\ (5 ∉ (∅ : gset Z))
  /\ hangup {| events := EPOLLHUP; data_fd := 5 |}
  /\ exists w',
       handle_event {| events := EPOLLHUP; data_fd := 5 |}
         {| bytes := 0; stored := [] |} one_client = Ret tt w'
       /\ clients w' = ∅.
Proof.
  assert (0 <= 5) as H1 by lia.
  assert (0 <= 0) as H1' by lia.
  assert (5 ∉ (∅ : gset Z)) as H2 by apply not_elem_of_empty.
  assert (hangup {| events := EPOLLHUP; data_fd := 5 |}) as H3
    by (vm_compute; discriminate).
  split; [exact H1|]. split; [exact H1'|]. split; [exact H2|].
  split; [exact H3|].
  exact (accepted_client_closed_by_hangup
           {| Acceptor.client := 5; Acceptor.errno := 0;
              Acceptor.epoll_ctl_ret := 0 |}
           (Acceptor.State ∅ []) {| events := EPOLLHUP; data_fd := 5 |}
           {| bytes := 0; stored := [] |} one_client
           H1 H1' H2 (eq_sym (right_id_L ∅ (∪) {[5]})) H3 eq_refl
           (or_intror eq_refl)).
Defined.
